(** * Jeux Tic-Tac-Toe server: a shallow embedding of the game, player,
    invitation, client, protocol and registry modules, with the
    properties of the specification stated over it.

    Conventions of the embedding.
    - A C [int] is a [Z]; the values the code stores stay small, so no
      wrap-around is involved except where a narrower type is assigned
      ([char], [uint8_t], [uint16_t], [uint32_t]), where it is written out.
    - A heap object reached through a pointer is passed in and returned
      (explicit state passing); a function that returns an [int] status and
      mutates its argument returns a pair.
    - Mutexes and semaphores guard single calls and are not represented:
      every theorem below is about one thread of calls.
    - An access outside an array is undefined behaviour in C; the embedding
      returns [None] there and makes no statement about it.
    - Where an operation crosses objects (the registries, and the
      operations of a client on invitations, games and players), the
      objects live on heaps indexed by address, [malloc] hands out an
      address never used before, and the use of an address that was freed
      is undefined behaviour, again [None]. *)

From Stdlib Require Import ZArith Lia Ascii String List Bool Reals Lra.
From Stdlib.Strings Require Import Byte.
From stdpp Require Import base list.
Import ListNotations.

Open Scope Z_scope.

(* ===================================================================== *)
(** * C characters and NUL-terminated strings *)
(* ===================================================================== *)

Module CString.

(** [(int) c] for a [char] holding [c]; [char] is signed on the target. *)
Definition char_to_int (c : ascii) : Z :=
  let n := Z.of_nat (nat_of_ascii c) in
  if n <? 128 then n else n - 256.

(** [(char) z]: the low eight bits of [z]. *)
Definition int_to_char (z : Z) : ascii :=
  ascii_of_nat (Z.to_nat (z mod 256)).

Definition NUL : ascii := Ascii.zero.

(** The characters a C function sees in a buffer: those before the
    first NUL. *)
Fixpoint c_chars (s : string) : list ascii :=
  match s with
  | EmptyString => []
  | String c s' => if Ascii.eqb c NUL then [] else c :: c_chars s'
  end.

Definition strlen (s : string) : nat := length (c_chars s).

(** [str[0]]: the terminator itself when the string is empty. *)
Definition first_char (s : string) : ascii :=
  match c_chars s with
  | [] => NUL
  | c :: _ => c
  end.

(** The string a buffer holds for a C function. *)
Definition c_string (s : string) : string :=
  string_of_list_ascii (c_chars s).

(** [strcmp(a, b) == 0]. *)
Definition strcmp_eq (a b : string) : bool :=
  String.eqb (c_string a) (c_string b).

End CString.

(* ===================================================================== *)
(** * game.c *)
(* ===================================================================== *)

Module Game.
Import CString.

(** Modelled from the spec: game.h, which declares GAME_ROLE, is not
    among the sources; the roles are none, first (X) and second (O). *)
Inductive GAME_ROLE := NULL_ROLE | FIRST_PLAYER_ROLE | SECOND_PLAYER_ROLE.

(** [struct game]: a cell holds -1 (empty), 1 (X) or 0 (O). *)
Record GAME := mkGAME {
  game_board : list Z;
  isOver : Z;
  winner : GAME_ROLE;
  count : Z;
  expectedPiece : Z
}.

Record GAME_MOVE := mkMOVE {
  piece : Z;
  placement : Z
}.

Definition game_ref (game : GAME) : GAME :=
  mkGAME (game_board game) (isOver game) (winner game)
         (count game + 1) (expectedPiece game).

Definition game_create : GAME :=
  game_ref (mkGAME (replicate 9 (-1)) 0 NULL_ROLE 0 1).

(** [game->game_board[i]] for an index known to be inside the array. *)
Definition cell (game : GAME) (i : nat) : Z := game_board game !!! i.

Definition set_over (game : GAME) (w : GAME_ROLE) : GAME :=
  mkGAME (game_board game) 1 w (count game) (expectedPiece game).

(** The winner recorded for a completed line that starts at cell [i]. *)
Definition line_winner (game : GAME) (i : nat) : GAME_ROLE :=
  if cell game i =? 1 then FIRST_PLAYER_ROLE else SECOND_PLAYER_ROLE.

(** The test the code applies to the three cells [a], [b], [c]. *)
Definition line_full (game : GAME) (a b c : nat) : bool :=
  negb (cell game a =? -1)
  && (cell game a =? cell game b) && (cell game b =? cell game c).

(** The loop [for (i = 0, j = 0; i < 7 && j < 3; i += 3, j++)] over the
    rows and columns; both [break]s leave the loop with the flag set. *)
Fixpoint rows_cols_loop (fuel : nat) (i j : nat) (game : GAME) : GAME :=
  match fuel with
  | O => game
  | S fuel' =>
      if (i <? 7)%nat && (j <? 3)%nat then
        if line_full game i (i + 1) (i + 2) then
          set_over game (line_winner game i)
        else if line_full game j (j + 3) (j + 6) then
          set_over game (line_winner game j)
        else rows_cols_loop fuel' (i + 3) (j + 1) game
      else game
  end.

(** The final scan [for (i = 0; i < 9; i++)] that clears [cleared] when
    an empty cell is met. *)
Definition cleared (game : GAME) : bool :=
  forallb (fun i => negb (cell game i =? -1)) (seq 0 9).

(** The part of [game_apply_move] that follows the store into the
    board: the two diagonal tests (each returns at once), the loop over
    rows and columns, and the test for a full board. *)
Definition detect_end (g1 : GAME) : GAME :=
  if line_full g1 0 4 8 then set_over g1 (line_winner g1 0)
  else if line_full g1 2 4 6 then set_over g1 (line_winner g1 2)
  else
    let g2 := rows_cols_loop 4 0 0 g1 in
    if isOver g2 =? 0 then
      if cleared g2 then set_over g2 NULL_ROLE else g2
    else g2.

Definition game_apply_move (game : GAME) (move : GAME_MOVE)
  : option (Z * GAME) :=
  if negb (isOver game =? 0) then Some (-1, game)
  else
    let idx := placement move - 1 in
    if (idx <? 0) || (9 <=? idx) then None
    else
      let k := Z.to_nat idx in
      if negb (cell game k =? -1)
         || negb (expectedPiece game =? piece move)
      then Some (-1, game)
      else
        Some (0, detect_end
                   (mkGAME (<[k := piece move]> (game_board game))
                           (isOver game) (winner game) (count game)
                           (1 - expectedPiece game))).

Definition game_resign (game : GAME) (role : GAME_ROLE) : Z * GAME :=
  if negb (isOver game =? 0) then (-1, game)
  else
    match role with
    | FIRST_PLAYER_ROLE => (0, set_over game SECOND_PLAYER_ROLE)
    | _ => (0, set_over game FIRST_PLAYER_ROLE)
    end.

Definition game_is_over (game : GAME) : Z := isOver game.

Definition game_get_winner (game : GAME) : GAME_ROLE := winner game.

Definition is_x (c : ascii) : bool :=
  Ascii.eqb c "x"%char || Ascii.eqb c "X"%char.

Definition is_o (c : ascii) : bool :=
  Ascii.eqb c "o"%char || Ascii.eqb c "O"%char.

(** The loop [for (i = 1; i < strlen(str); i++)], run over the
    characters that follow the first one; -1 when it ends without a
    [break]. *)
Fixpoint scan_piece (cs : list ascii) : Z :=
  match cs with
  | [] => -1
  | c :: cs' =>
      if is_x c then 1
      else if is_o c then 0
      else scan_piece cs'
  end.

(** [game] and [role] are only locked and ignored by the code. *)
Definition game_parse_move (game : GAME) (role : GAME_ROLE) (str : string)
  : option GAME_MOVE :=
  let placement := char_to_int (first_char str) - 48 in
  if (placement <=? 0) && (placement >=? 10) then None
  else
    let piece := scan_piece (tail (c_chars str)) in
    if piece =? -1 then None
    else Some (mkMOVE piece placement).

(** The five-byte [calloc]ed buffer after the four stores. *)
Definition game_unparse_move (move : GAME_MOVE) : string :=
  let c := if piece move =? 1 then "X"%char else "O"%char in
  String (int_to_char (placement move + 48))
    (String "-"%char (String ">"%char (String c
      (String NUL EmptyString)))).

(** ** Vocabulary of the specification *)

(** A cell character: one of the digits 1 to 9. *)
Definition is_cell (c : ascii) : bool :=
  (49 <=? nat_of_ascii c)%nat && (nat_of_ascii c <=? 57)%nat.

Definition cell_of (c : ascii) : Z := Z.of_nat (nat_of_ascii c) - 48.

(** A piece character: X, O, x or o. *)
Definition is_piece (c : ascii) : bool := is_x c || is_o c.

Definition piece_of (c : ascii) : Z := if is_x c then 1 else 0.

(** The piece named by the first piece character of [cs], if any. *)
Definition first_piece (cs : list ascii) : option Z :=
  match List.find is_piece cs with
  | Some c => Some (piece_of c)
  | None => None
  end.

(** The eight winning lines, as cell indices. *)
Definition winning_lines : list (nat * nat * nat) :=
  [(0, 1, 2); (3, 4, 5); (6, 7, 8);
   (0, 3, 6); (1, 4, 7); (2, 5, 8);
   (0, 4, 8); (2, 4, 6)]%nat.

(** Three equal pieces on one winning line. *)
Definition three_in_a_row (game : GAME) : bool :=
  existsb (fun '(a, b, c) =>
             negb (cell game a =? -1)
             && (cell game a =? cell game b)
             && (cell game b =? cell game c))
          winning_lines.

(** The number of cells of [l] that hold [p]. *)
Definition count_in (p : Z) (l : list Z) : Z :=
  Z.of_nat (length (filter (fun c => c = p) l)).

Definition count_piece (p : Z) (game : GAME) : Z :=
  count_in p (game_board game).

(** One call a client of the game module can make. *)
Inductive game_op :=
| OpMove (m : GAME_MOVE)
| OpResign (r : GAME_ROLE).

Definition run_op (game : GAME) (op : game_op) : option (Z * GAME) :=
  match op with
  | OpMove m => game_apply_move game m
  | OpResign r => Some (game_resign game r)
  end.

(** Runs the calls in order, collecting the status of each. *)
Fixpoint run_all (game : GAME) (ops : list game_op)
  : option (list Z * GAME) :=
  match ops with
  | [] => Some ([], game)
  | op :: ops' =>
      match run_op game op with
      | None => None
      | Some (rc, g1) =>
          match run_all g1 ops' with
          | None => None
          | Some (rcs, g2) => Some (rc :: rcs, g2)
          end
      end
  end.

(** States reached from [game_create] by calls that returned 0. *)
Inductive reachable : GAME -> Prop :=
| reach_create : reachable game_create
| reach_op game op game' :
    reachable game -> run_op game op = Some (0, game') -> reachable game'.

(** The same, with [game_apply_move] as the only operation. *)
Inductive reachable_by_moves : GAME -> Prop :=
| reach_m_create : reachable_by_moves game_create
| reach_m_move game m game' :
    reachable_by_moves game ->
    game_apply_move game m = Some (0, game') ->
    reachable_by_moves game'.

(** What holds of every game built by moves alone. *)
Definition game_inv (g : GAME) : Prop :=
  length (game_board g) = 9%nat /\
  (expectedPiece g = 0 \/ expectedPiece g = 1) /\
  count_piece 1 g - count_piece 0 g = 1 - expectedPiece g /\
  (isOver g = 0 -> winner g = NULL_ROLE) /\
  (winner g <> NULL_ROLE <-> three_in_a_row g = true).

(** The game of the specification's second scenario: 5X 1O 4X 2O 6X. *)
Definition scenario_moves : list GAME_MOVE :=
  [mkMOVE 1 5; mkMOVE 0 1; mkMOVE 1 4; mkMOVE 0 2; mkMOVE 1 6].

Definition scenario_game : GAME :=
  match run_all game_create (map OpMove scenario_moves) with
  | Some (_, g) => g
  | None => game_create
  end.

(** ** The rest of game.c *)

(** The character [game_unparse_state] writes for a cell. *)
Definition piece_char (gamePiece : Z) : ascii :=
  if gamePiece =? -1 then " "%char
  else if gamePiece =? 1 then "X"%char
  else "O"%char.

Definition newline : ascii := "010"%char.

(** The loop [for (i = 1; i < 30; i++)] of [game_unparse_state], over
    the values of [i] still to come; the characters are the ones stored
    at [gameState[i - 1]], in order. *)
Fixpoint unparse_loop (idxs : list nat) (boardPlace : nat) (dashes : Z)
    (game : GAME) : list ascii :=
  match idxs with
  | [] => []
  | i :: rest =>
      if negb (dashes =? 0) then
        if (i mod 6 =? 0)%nat
        then newline :: unparse_loop rest boardPlace (1 - dashes) game
        else "-"%char :: unparse_loop rest boardPlace dashes game
      else
        if (i mod 6 =? 0)%nat
        then newline :: unparse_loop rest boardPlace (1 - dashes) game
        else if (i mod 2 =? 0)%nat
        then "|"%char :: unparse_loop rest boardPlace dashes game
        else piece_char (cell game boardPlace)
             :: unparse_loop rest (S boardPlace) dashes game
  end.

(** The 30-byte [calloc]ed buffer: 29 characters and the terminator. *)
Definition game_unparse_state (game : GAME) : string :=
  string_of_list_ascii (unparse_loop (seq 1 29) 0 0 game ++ [NUL]).

(** A board of nine cells, each empty, X or O. *)
Definition board_ok (game : GAME) : Prop :=
  length (game_board game) = 9%nat /\
  Forall (fun c => c = -1 \/ c = 0 \/ c = 1) (game_board game).

(** The three cells of a winning line all hold [p]. *)
Definition line_of (game : GAME) (p : Z) : Prop :=
  exists a b c, In (a, b, c) winning_lines /\
    cell game a = p /\ cell game b = p /\ cell game c = p.

(** What holds of every game built by moves alone, besides [game_inv]. *)
Definition end_inv (g : GAME) : Prop :=
  (isOver g = 0 \/ isOver g = 1) /\
  (isOver g <> 0 <-> three_in_a_row g = true \/ cleared g = true) /\
  (winner g = FIRST_PLAYER_ROLE -> line_of g 1 /\ expectedPiece g = 0) /\
  (winner g = SECOND_PLAYER_ROLE -> line_of g 0 /\ expectedPiece g = 1).

End Game.

(* ===================================================================== *)
(** * player.c *)
(* ===================================================================== *)

Module Player.

Record PLAYER := mkPLAYER {
  rating : Z;
  name : string;
  count : Z
}.

(** Arithmetic on [float] and [double] is taken as exact arithmetic on
    real numbers: the embedding keeps the formula and the conversions
    between [int] and floating point, and leaves out the rounding error
    of each operation. *)
Definition int_to_float (z : Z) : R := IZR z.

(** [(int) x] drops the fractional part (truncation toward zero). *)
Definition float_to_int (x : R) : Z :=
  if Rle_dec 0 x then Int_part x else - Int_part (- x).

Definition pow (x y : R) : R := Rpower x y.

Definition set_rating (p : PLAYER) (r : Z) : PLAYER :=
  mkPLAYER r (name p) (count p).

Definition player_get_rating (p : PLAYER) : Z := rating p.

(** Scores for [result]: 0 draw, 1 first player won, anything else
    second player won. *)
Definition scores (result : Z) : R * R :=
  if result =? 0 then (0.5, 0.5)%R
  else if result =? 1 then (1.0, 0.0)%R
  else (0.0, 1.0)%R.

Definition player_post_result (player1 player2 : PLAYER) (result : Z)
  : PLAYER * PLAYER :=
  let '(S1, S2) := scores result in
  let R1 := int_to_float (player_get_rating player1) in
  let R2 := int_to_float (player_get_rating player2) in
  let E1 := (1.0 / (1.0 + pow 10.0 ((R2 - R1) / 400.0)))%R in
  let E2 := (1.0 / (1.0 + pow 10.0 ((R1 - R2) / 400.0)))%R in
  let newR1 :=
    float_to_int (R1 + int_to_float (float_to_int (32.0 * (S1 - E1))))%R in
  let newR2 :=
    float_to_int (R2 + int_to_float (float_to_int (32.0 * (S2 - E2))))%R in
  (set_rating player1 newR1, set_rating player2 newR2).

(** ** The rest of player.c *)

(** Modelled from the spec: player.h, which defines
    PLAYER_INITIAL_RATING, is not among the sources; the specification
    gives 1500 as the rating of a new player. *)
Definition PLAYER_INITIAL_RATING : Z := 1500.

Definition player_ref (p : PLAYER) : PLAYER :=
  mkPLAYER (rating p) (name p) (count p + 1).

(** The name is copied with [strcpy], up to its terminator. *)
Definition player_create (name : string) : PLAYER :=
  player_ref (mkPLAYER PLAYER_INITIAL_RATING (CString.c_string name) 0).

(** [None] when the count reaches zero and the player is freed. *)
Definition player_unref (p : PLAYER) : option PLAYER :=
  if count p - 1 =? 0 then None
  else Some (mkPLAYER (rating p) (name p) (count p - 1)).

Definition player_get_name (p : PLAYER) : string := name p.

(** ** Vocabulary of the specification *)



End Player.

(* ===================================================================== *)
(** * invitation.c *)
(* ===================================================================== *)

Module Invitation.
Import Game.

(** Modelled from the spec: invitation.h, which declares
    INVITATION_STATE, is not among the sources; the states are open,
    accepted and closed. *)
Inductive INVITATION_STATE :=
| INV_OPEN_STATE | INV_ACCEPTED_STATE | INV_CLOSED_STATE.

(** A [CLIENT *] is kept as the address it holds. *)
Definition CLIENT_ptr := nat.

Record INVITATION := mkINV {
  source : CLIENT_ptr;
  source_role : GAME_ROLE;
  target : CLIENT_ptr;
  target_role : GAME_ROLE;
  state : INVITATION_STATE;
  game : option GAME;
  count : Z
}.

Definition set_state (inv : INVITATION) (s : INVITATION_STATE)
  : INVITATION :=
  mkINV (source inv) (source_role inv) (target inv) (target_role inv)
        s (game inv) (count inv).

Definition set_game (inv : INVITATION) (g : option GAME) : INVITATION :=
  mkINV (source inv) (source_role inv) (target inv) (target_role inv)
        (state inv) g (count inv).

Definition inv_ref (inv : INVITATION) : INVITATION :=
  mkINV (source inv) (source_role inv) (target inv) (target_role inv)
        (state inv) (game inv) (count inv + 1).

Definition inv_create (source target : CLIENT_ptr)
    (source_role target_role : GAME_ROLE) : option INVITATION :=
  if (source =? target)%nat then None
  else Some (inv_ref (mkINV source source_role target target_role
                            INV_OPEN_STATE None 0)).

Definition inv_get_game (inv : INVITATION) : option GAME := game inv.

Definition inv_accept (inv : INVITATION) : Z * INVITATION :=
  match state inv with
  | INV_OPEN_STATE =>
      (0, set_game (set_state inv INV_ACCEPTED_STATE) (Some game_create))
  | _ => (-1, inv)
  end.

Definition inv_close (inv : INVITATION) (role : GAME_ROLE)
  : Z * INVITATION :=
  match state inv with
  | INV_CLOSED_STATE => (-1, inv)
  | _ =>
      match game inv with
      | None => (0, set_state inv INV_CLOSED_STATE)
      | Some g =>
          if negb (game_is_over g =? 0)
          then (0, set_state inv INV_CLOSED_STATE)
          else
            match role with
            | NULL_ROLE => (-1, inv)
            | _ =>
                let g' := snd (game_resign g role) in
                (0, set_state (set_game inv (Some g')) INV_CLOSED_STATE)
            end
      end
  end.

(** The game pointer agrees with the state: absent while open,
    present once accepted. *)
Definition inv_ok (inv : INVITATION) : bool :=
  match state inv, game inv with
  | INV_OPEN_STATE, None => true
  | INV_OPEN_STATE, Some _ => false
  | INV_ACCEPTED_STATE, Some _ => true
  | INV_ACCEPTED_STATE, None => false
  | INV_CLOSED_STATE, _ => true
  end.

(** Invitations as the server builds them: created by [inv_create],
    then driven by [inv_accept], [inv_close] and by moves applied to the
    game the invitation holds. *)
Inductive reachable : INVITATION -> Prop :=
| reach_create s t sr tr inv :
    inv_create s t sr tr = Some inv -> reachable inv
| reach_accept inv :
    reachable inv -> reachable (snd (inv_accept inv))
| reach_close inv role :
    reachable inv -> reachable (snd (inv_close inv role))
| reach_move inv g m rc g' :
    reachable inv -> game inv = Some g ->
    game_apply_move g m = Some (rc, g') ->
    reachable (set_game inv (Some g'))
| reach_ref inv :
    reachable inv -> reachable (inv_ref inv).

End Invitation.

(* ===================================================================== *)
(** * protocol.c *)
(* ===================================================================== *)

Module Protocol.

Definition byte_to_Z (b : byte) : Z := Z.of_N (Byte.to_N b).

(** The low eight bits of [z] as a byte. *)
Definition Z_to_byte (z : Z) : byte :=
  match Byte.of_N (Z.to_N (z mod 256)) with
  | Some b => b
  | None => x00
  end.

(** Little-endian value of a byte sequence, and its inverse on [w]
    bytes. *)
Fixpoint le_decode (bs : list byte) : Z :=
  match bs with
  | [] => 0
  | b :: bs' => byte_to_Z b + 256 * le_decode bs'
  end.

Fixpoint le_encode (w : nat) (v : Z) : list byte :=
  match w with
  | O => []
  | S w' => Z_to_byte v :: le_encode w' (v / 256)
  end.

(** What a [read] call meets: a failure, or the bytes that have arrived
    so far. *)
Inductive read_outcome :=
| ReadErr
| ReadData (bs : list byte).

(** The reading side of a descriptor: the outcomes still to come (none
    left: end of file) and the number of [read] calls made so far. *)
Record in_fd := mkIn {
  r_script : list read_outcome;
  r_calls : nat
}.

(** [read(fd, buf, n)]: the status and the bytes stored at the start of
    [buf]; bytes that have arrived and were not asked for stay in the
    descriptor. *)
Definition read (fd : in_fd) (n : nat) : Z * list byte * in_fd :=
  match r_script fd with
  | [] => (0, [], mkIn [] (S (r_calls fd)))
  | ReadErr :: rest => (-1, [], mkIn rest (S (r_calls fd)))
  | ReadData bs :: rest =>
      let got := take n bs in
      let left := drop n bs in
      (Z.of_nat (length got), got,
       mkIn (match left with
             | [] => rest
             | _ => ReadData left :: rest
             end) (S (r_calls fd)))
  end.

(** What a [write] call meets: a failure, or room for [n] bytes. *)
Inductive write_outcome :=
| WriteErr
| WriteRoom (n : nat).

(** The writing side: the outcomes still to come (none left: every
    byte is taken), the buffer handed to each [write] call so far, and
    the bytes that went out. *)
Record out_fd := mkOut {
  w_script : list write_outcome;
  w_calls : list (list byte);
  w_wire : list byte
}.

(** [write(fd, buf, n)] with [buf] the [n] bytes offered. *)
Definition write (fd : out_fd) (buf : list byte) : Z * out_fd :=
  match w_script fd with
  | [] => (Z.of_nat (length buf),
           mkOut [] (w_calls fd ++ [buf]) (w_wire fd ++ buf))
  | WriteErr :: rest => (-1, mkOut rest (w_calls fd ++ [buf]) (w_wire fd))
  | WriteRoom n :: rest =>
      let sent := take n buf in
      (Z.of_nat (length sent),
       mkOut rest (w_calls fd ++ [buf]) (w_wire fd ++ sent))
  end.

(** [buf] after [bs] has been stored at its start. *)
Definition overlay (bs buf : list byte) : list byte :=
  bs ++ drop (length bs) buf.

(** Modelled from the spec: protocol.h, which declares
    JEUX_PACKET_HEADER, is not among the sources.  The header is the
    16-byte structure of the specification: [type], [id] and [role] in
    bytes 0 to 2, [size] in bytes 4 and 5, [timestamp_sec] in bytes 8 to
    11 and [timestamp_nsec] in bytes 12 to 15. *)
Definition HDR_BYTES : nat := 16.
Definition OFF_TYPE : nat := 0.
Definition OFF_ID : nat := 1.
Definition OFF_ROLE : nat := 2.
Definition OFF_SIZE : nat := 4.
Definition OFF_SEC : nat := 8.
Definition OFF_NSEC : nat := 12.

Section Host.

(** Byte order of the machine the server runs on. *)
Variable host_le : bool.

Definition host_decode (bs : list byte) : Z :=
  if host_le then le_decode bs else le_decode (rev bs).

Definition host_encode (w : nat) (v : Z) : list byte :=
  if host_le then le_encode w v else rev (le_encode w v).

(** Network order is big-endian. *)
Definition net_decode (bs : list byte) : Z := le_decode (rev bs).
Definition net_encode (w : nat) (v : Z) : list byte :=
  rev (le_encode w v).

Definition htons (v : Z) : Z := host_decode (net_encode 2 v).
Definition ntohs (v : Z) : Z := net_decode (host_encode 2 v).
Definition htonl (v : Z) : Z := host_decode (net_encode 4 v).
Definition ntohl (v : Z) : Z := net_decode (host_encode 4 v).

(** Reading and assigning the [w]-byte field at offset [off] of a
    structure held in memory as [m]. *)
Definition load (w off : nat) (m : list byte) : Z :=
  host_decode (take w (drop off m)).

Definition store (w off : nat) (v : Z) (m : list byte) : list byte :=
  take off m ++ host_encode w v ++ drop (off + w) m.

Definition hdr_type := load 1 OFF_TYPE.
Definition hdr_id := load 1 OFF_ID.
Definition hdr_role := load 1 OFF_ROLE.
Definition hdr_size := load 2 OFF_SIZE.
Definition hdr_sec := load 4 OFF_SEC.
Definition hdr_nsec := load 4 OFF_NSEC.

(** [data] is [None] for a NULL pointer. *)
Definition proto_send_packet (fd : out_fd) (hdr : list byte)
    (data : option (list byte)) : Z * out_fd :=
  let '(returnedBytes, fd1) := write fd (take HDR_BYTES hdr) in
  if returnedBytes =? -1 then (-1, fd1)
  else
    match data with
    | Some d =>
        if 0 <? ntohs (hdr_size hdr) then
          let '(returnedBytes, fd2) :=
            write fd1 (take (Z.to_nat (ntohs (hdr_size hdr))) d) in
          if returnedBytes =? -1 then (-1, fd2) else (0, fd2)
        else (0, fd1)
    | None => (0, fd1)
    end.

(** The three assignments made to the caller's header before
    anything is read. *)
Definition swap_stale (hdr : list byte) : list byte :=
  let h1 := store 2 OFF_SIZE (ntohs (hdr_size hdr)) hdr in
  let h2 := store 4 OFF_SEC (ntohl (hdr_sec h1)) h1 in
  store 4 OFF_NSEC (ntohl (hdr_nsec h2)) h2.

(** Returns the status, the header storage, [*payloadp] and the
    descriptor. *)
Definition proto_recv_packet (fd : in_fd) (hdr : list byte)
  : Z * list byte * option (list byte) * in_fd :=
  let hdr0 := swap_stale hdr in
  let '(returnedBytes, bs, fd1) := read fd HDR_BYTES in
  let hdr1 := overlay bs hdr0 in
  if returnedBytes =? -1 then (-1, hdr1, None, fd1)
  else if returnedBytes =? 0 then (-1, hdr1, None, fd1)
  else if 0 <? hdr_size hdr1 then
    let n := Z.to_nat (hdr_size hdr1) in
    let buf := replicate (S n) x00 in
    let '(returnedBytes, bs, fd2) := read fd1 n in
    let payload := overlay bs buf in
    if returnedBytes =? -1 then (-1, hdr1, Some payload, fd2)
    else (0, hdr1, Some payload, fd2)
  else (0, hdr1, None, fd1).

End Host.

(** ** Vocabulary of the specification *)

Definition recv_status (r : Z * list byte * option (list byte) * in_fd)
  : Z := fst (fst (fst r)).

Definition recv_fd (r : Z * list byte * option (list byte) * in_fd)
  : in_fd := snd r.

Definition read_status (r : Z * list byte * in_fd) : Z := fst (fst r).
Definition read_bytes (r : Z * list byte * in_fd) : list byte :=
  snd (fst r).
Definition read_fd (r : Z * list byte * in_fd) : in_fd := snd r.

(** The buffers handed to [write] between two states of a
    descriptor. *)
Definition sent_since (before after : out_fd) : list (list byte) :=
  drop (length (w_calls before)) (w_calls after).

(** A header as a peer would send it, in network byte order. *)
Definition wire_header (type id role size sec nsec : Z) : list byte :=
  [Z_to_byte type; Z_to_byte id; Z_to_byte role; x00]
  ++ rev (le_encode 2 size) ++ [x00; x00]
  ++ rev (le_encode 4 sec) ++ rev (le_encode 4 nsec).

End Protocol.

(* ===================================================================== *)
(** * client.c *)
(* ===================================================================== *)

Module Client.
Import Protocol.

(** An [INVITATION *] is kept as the address it holds; the list
    compares invitations by address. *)
Definition INVITATION_ptr := nat.

Record INVITE_NODE := mkNODE {
  id : Z;
  invitation : INVITATION_ptr
}.

(** [struct client]; [player] is [None] while logged out and the
    linked list headed by [inviteHead] is a list of nodes. *)
Record CLIENT := mkCLIENT {
  fd : Z;
  player : option nat;
  inviteHead : list INVITE_NODE;
  count : Z;
  invites : Z
}.

Definition client_ref (client : CLIENT) : CLIENT :=
  mkCLIENT (fd client) (player client) (inviteHead client)
           (count client + 1) (invites client).

Definition client_create (fd : Z) : CLIENT :=
  client_ref (mkCLIENT fd None [] 0 0).

(** [None] when the count reaches zero and the client is freed. *)
Definition client_unref (c : CLIENT) : option CLIENT :=
  if count c - 1 =? 0 then None
  else Some (mkCLIENT (fd c) (player c) (inviteHead c) (count c - 1)
                       (invites c)).

Definition set_list (client : CLIENT) (l : list INVITE_NODE) (n : Z)
  : CLIENT :=
  mkCLIENT (fd client) (player client) l (count client) n.

(** The new node goes after the last one. *)
Definition client_add_invitation (client : CLIENT) (inv : INVITATION_ptr)
  : Z * CLIENT :=
  let node := mkNODE (invites client) inv in
  (id node,
   set_list client (inviteHead client ++ [node]) (invites client + 1)).

(** The scan [while (current != NULL && current->invitation != inv)]:
    the nodes passed over, then the node found and those behind it. *)
Fixpoint find_inv (l : list INVITE_NODE) (inv : INVITATION_ptr)
  : list INVITE_NODE * list INVITE_NODE :=
  match l with
  | [] => ([], [])
  | n :: l' =>
      if (invitation n =? inv)%nat then ([], l)
      else let '(before, from) := find_inv l' inv in (n :: before, from)
  end.

Definition client_remove_invitation (client : CLIENT)
    (inv : INVITATION_ptr) : Z * CLIENT :=
  match inviteHead client with
  | temp :: next =>
      if (invitation temp =? inv)%nat
      then (id temp, set_list client next (invites client - 1))
      else
        match find_inv (inviteHead client) inv with
        | (_, []) => (-1, client)
        | (before, current :: next') =>
            (id current,
             set_list client (before ++ next') (invites client - 1))
        end
  | [] => (-1, client)
  end.

Fixpoint get_invite_node_from_id (l : list INVITE_NODE) (i : Z)
  : option INVITE_NODE :=
  match l with
  | [] => None
  | n :: l' => if id n =? i then Some n else get_invite_node_from_id l' i
  end.

(** The same scan, as [get_invite_node_from_inv] makes it. *)
Fixpoint get_invite_node_from_inv (l : list INVITE_NODE)
    (inv : INVITATION_ptr) : option INVITE_NODE :=
  match l with
  | [] => None
  | n :: l' =>
      if (invitation n =? inv)%nat then Some n
      else get_invite_node_from_inv l' inv
  end.

(** One call on a client's invitation list. *)
Inductive list_op :=
| Add (inv : INVITATION_ptr)
| Remove (inv : INVITATION_ptr).

(** Runs the calls in order; the result lists the identifier each [Add]
    returned, oldest first. *)
Fixpoint run_ops (client : CLIENT) (ops : list list_op)
  : list Z * CLIENT :=
  match ops with
  | [] => ([], client)
  | Add inv :: ops' =>
      let '(i, c1) := client_add_invitation client inv in
      let '(ids, c2) := run_ops c1 ops' in
      (i :: ids, c2)
  | Remove inv :: ops' =>
      run_ops (snd (client_remove_invitation client inv)) ops'
  end.

Section Packets.

Variable host_le : bool.

(** Packet type codes of protocol.h, which is not among the
    sources. *)
Variables JEUX_ACK_PKT JEUX_NACK_PKT : Z.

(** [clock] is what [clock_gettime] stored, [None] when it failed. *)
Definition client_send_packet (out : out_fd) (pkt : list byte)
    (data : option (list byte)) (clock : option (Z * Z))
  : Z * out_fd :=
  let p1 := store host_le 2 OFF_SIZE
                  (htons host_le (hdr_size host_le pkt)) pkt in
  let '(sec, nsec) := match clock with
                      | None => (0, 0)
                      | Some ts => ts
                      end in
  let p2 := store host_le 4 OFF_SEC (htonl host_le sec) p1 in
  let p3 := store host_le 4 OFF_NSEC (htonl host_le nsec) p2 in
  proto_send_packet host_le out p3 data.

(** [calloc(1, sizeof(JEUX_PACKET_HEADER))]. *)
Definition calloc_header : list byte := replicate HDR_BYTES x00.

Definition client_send_ack (out : out_fd) (data : option (list byte))
    (datalen : Z) (clock : option (Z * Z)) : Z * out_fd :=
  let p1 := store host_le 1 OFF_TYPE JEUX_ACK_PKT calloc_header in
  let p2 := store host_le 1 OFF_ID 0 p1 in
  let p3 := store host_le 1 OFF_ROLE 0 p2 in
  let p4 := store host_le 2 OFF_SIZE datalen p3 in
  client_send_packet out p4 data clock.

Definition client_send_nack (out : out_fd) (clock : option (Z * Z))
  : Z * out_fd :=
  let p1 := store host_le 1 OFF_TYPE JEUX_NACK_PKT calloc_header in
  let p2 := store host_le 1 OFF_ID 0 p1 in
  let p3 := store host_le 1 OFF_ROLE 0 p2 in
  let p4 := store host_le 2 OFF_SIZE 0 p3 in
  client_send_packet out p4 None clock.

(** server.c, the answer to an ACCEPT request for invitation
    [req_id]: [error] and [strp] are what [client_accept_invitation]
    returned and stored. *)
Definition accept_reply (out : out_fd) (req_id : Z) (error : Z)
    (strp : option (list byte)) (clock : option (Z * Z))
  : Z * out_fd :=
  if error =? -1 then client_send_nack out clock
  else
    match strp with
    | Some s => client_send_ack out (Some s) (Z.of_nat (length s)) clock
    | None => client_send_ack out None 0 clock
    end.

End Packets.

End Client.

(* ===================================================================== *)
(** * Objects on the heap *)
(* ===================================================================== *)

Module Heap.

(** The objects of one type that [malloc] has handed out, by address;
    an address that was freed holds [None].  A new object gets an address
    never used before. *)
Abbreviation heap A := (list (option A)).

Definition alloc {A} (h : heap A) (x : A) : nat * heap A :=
  (length h, h ++ [Some x]).

(** [None]: the address was never handed out or was freed, and using it
    is undefined behaviour. *)
Definition deref {A} (h : heap A) (p : nat) : option A :=
  match h !! p with
  | Some (Some x) => Some x
  | _ => None
  end.

Definition update {A} (h : heap A) (p : nat) (x : A) : heap A :=
  <[p := Some x]> h.

Definition free {A} (h : heap A) (p : nat) : heap A :=
  <[p := None]> h.

End Heap.

(* ===================================================================== *)
(** * player_registry.c *)
(* ===================================================================== *)

Module PlayerRegistry.
Import CString Player Heap.

(** [struct player_registry]: the players its nodes point to, first
    node first. *)
Record PLAYER_REGISTRY := mkPREG {
  head : list nat
}.

Definition preg_init : PLAYER_REGISTRY := mkPREG [].

(** The scan [while (current != NULL && strcmp(player_get_name(
    current->player), name) != 0)]: the player of the node it stops at,
    if any.  The outer [None] is a node whose player has been freed. *)
Fixpoint preg_find (players : heap PLAYER) (nodes : list nat)
    (name : string) : option (option nat) :=
  match nodes with
  | [] => Some None
  | p :: rest =>
      match deref players p with
      | None => None
      | Some pl =>
          if strcmp_eq (player_get_name pl) name then Some (Some p)
          else preg_find players rest name
      end
  end.

(** Returns the player and the new heap and registry. *)
Definition preg_register (players : heap PLAYER) (preg : PLAYER_REGISTRY)
    (name : string) : option (nat * heap PLAYER * PLAYER_REGISTRY) :=
  match preg_find players (head preg) name with
  | None => None
  | Some None =>
      let '(player, players1) := alloc players (player_create name) in
      match deref players1 player with
      | None => None
      | Some pl =>
          Some (player, update players1 player (player_ref pl),
                mkPREG (player :: head preg))
      end
  | Some (Some player) =>
      match deref players player with
      | None => None
      | Some pl => Some (player, update players player (player_ref pl), preg)
      end
  end.

(** The registry's nodes point to live players with different names. *)
Definition preg_ok (players : heap PLAYER) (preg : PLAYER_REGISTRY) : Prop :=
  NoDup (head preg) /\
  (forall p, In p (head preg) -> exists pl, deref players p = Some pl) /\
  (forall p q pl ql, In p (head preg) -> In q (head preg) ->
     deref players p = Some pl -> deref players q = Some ql ->
     c_string (name pl) = c_string (name ql) -> p = q).

End PlayerRegistry.

(* ===================================================================== *)
(** * client_registry.c *)
(* ===================================================================== *)

Module ClientRegistry.
Import CString Player Heap Client.

(** [struct client_registry]: [clients] is the array of MAX_CLIENTS
    pointers, [None] for NULL. *)
Record CLIENT_REGISTRY := mkCREG {
  numClients : Z;
  clients : list (option nat)
}.

Section Capacity.

(** MAX_CLIENTS of client_registry.h, which is not among the sources. *)
Variable MAX_CLIENTS : nat.

Definition creg_init : CLIENT_REGISTRY :=
  mkCREG 0 (replicate MAX_CLIENTS None).

(** The index at which [for (i = 0; i < MAX_CLIENTS; i++)] first finds
    a slot equal to [x]. *)
Fixpoint first_slot (x : option nat) (slots : list (option nat))
  : option nat :=
  match slots with
  | [] => None
  | s :: rest =>
      if decide (s = x) then Some 0%nat
      else match first_slot x rest with
           | Some i => Some (S i)
           | None => None
           end
  end.

(** Returns the new client, [None] for NULL. *)
Definition creg_register (cheap : heap CLIENT) (cr : CLIENT_REGISTRY)
    (fd : Z) : option nat * heap CLIENT * CLIENT_REGISTRY :=
  if numClients cr =? Z.of_nat MAX_CLIENTS then (None, cheap, cr)
  else
    let '(client, cheap1) := alloc cheap (client_create fd) in
    match first_slot None (take MAX_CLIENTS (clients cr)) with
    | Some i =>
        (Some client, cheap1,
         mkCREG (numClients cr + 1) (<[i := Some client]> (clients cr)))
    | None => (Some client, cheap1, cr)
    end.

(** [client_unref] through the pointer; the outer [None] is a pointer
    to a client already freed. *)
Definition unref_at (cheap : heap CLIENT) (client : nat)
  : option (heap CLIENT) :=
  match deref cheap client with
  | None => None
  | Some c =>
      match client_unref c with
      | Some c' => Some (update cheap client c')
      | None => Some (free cheap client)
      end
  end.

Definition creg_unregister (cheap : heap CLIENT) (cr : CLIENT_REGISTRY)
    (client : nat) : option (Z * heap CLIENT * CLIENT_REGISTRY) :=
  match first_slot (Some client) (take MAX_CLIENTS (clients cr)) with
  | Some i =>
      match unref_at cheap client with
      | None => None
      | Some cheap1 =>
          Some (0, cheap1,
                mkCREG (numClients cr - 1) (<[i := None]> (clients cr)))
      end
  | None => Some (-1, cheap, cr)
  end.

(** The loop of [creg_lookup] over the slots still to visit: the client
    found ([None] for NULL).  The outer [None] is a slot or a login that
    points to a freed object. *)
Fixpoint lookup_loop (cheap : heap CLIENT) (pheap : heap PLAYER)
    (slots : list (option nat)) (user : string) : option (option nat) :=
  match slots with
  | [] => Some None
  | None :: rest => lookup_loop cheap pheap rest user
  | Some client :: rest =>
      match deref cheap client with
      | None => None
      | Some c =>
          match player c with
          | None => lookup_loop cheap pheap rest user
          | Some player =>
              match deref pheap player with
              | None => None
              | Some pl =>
                  if strcmp_eq (player_get_name pl) user
                  then Some (Some client)
                  else lookup_loop cheap pheap rest user
              end
          end
      end
  end.

(** Returns the client found, with its count raised, and the heap. *)
Definition creg_lookup (cheap : heap CLIENT) (pheap : heap PLAYER)
    (cr : CLIENT_REGISTRY) (user : string)
  : option (option nat * heap CLIENT) :=
  match lookup_loop cheap pheap (take MAX_CLIENTS (clients cr)) user with
  | None => None
  | Some None => Some (None, cheap)
  | Some (Some client) =>
      match deref cheap client with
      | None => None
      | Some c => Some (Some client, update cheap client (client_ref c))
      end
  end.

(** ** creg_all_players *)

Section AllPlayers.

(** [sizeof(PLAYER * )]. *)
Variable ptr_size : Z.





End AllPlayers.



(** The client at the address is logged in under the name. *)
Definition logged_in_as (cheap : heap CLIENT) (pheap : heap PLAYER)
    (client : nat) (user : string) : Prop :=
  exists c p pl,
    deref cheap client = Some c /\ player c = Some p /\
    deref pheap p = Some pl /\ c_string (name pl) = c_string user.

(** Every registered client is alive, and so is the player it is
    logged in as, if any. *)
Definition logins_ok (cheap : heap CLIENT) (pheap : heap PLAYER)
    (slots : list (option nat)) : Prop :=
  forall i client, slots !! i = Some (Some client) ->
    exists c, deref cheap client = Some c /\
      forall p, player c = Some p -> exists pl, deref pheap p = Some pl.

(** The number of slots taken. *)
Definition taken (slots : list (option nat)) : nat :=
  length (filter (fun s => s <> None) slots).

(** The registry and the heap agree: MAX_CLIENTS slots, [numClients]
    of them taken, by different clients that are all alive. *)
Definition creg_ok (cheap : heap CLIENT) (cr : CLIENT_REGISTRY) : Prop :=
  length (clients cr) = MAX_CLIENTS /\
  numClients cr = Z.of_nat (taken (clients cr)) /\
  (forall i j c, clients cr !! i = Some (Some c) ->
     clients cr !! j = Some (Some c) -> i = j) /\
  (forall i c, clients cr !! i = Some (Some c) ->
     exists cl, deref cheap c = Some cl).

End Capacity.

(** A registry of two slots whose first client is logged in as alice. *)
Definition example_clients : heap CLIENT :=
  [Some (mkCLIENT 7 (Some 0%nat) [] 1 0)].

Definition example_players : heap PLAYER :=
  [Some (mkPLAYER 1500 "alice" 3)].

Definition example_registry : CLIENT_REGISTRY :=
  mkCREG 1 [Some 0%nat; None].

End ClientRegistry.

(* ===================================================================== *)
(** * client.c: the operations on invitations and games *)
(* ===================================================================== *)

Module ClientOps.
Import CString Heap Protocol Game Player Invitation Client.

(** Everything the operations of a client reach through pointers: the
    clients, invitations and players on the heap, the connection behind
    each file descriptor, and the number of [clock_gettime] calls made
    so far.  A game is held inside the invitation that owns it; no other
    pointer to it is kept. *)
Record WORLD := mkWORLD {
  w_clients : heap CLIENT;
  w_invs : heap INVITATION;
  w_players : heap PLAYER;
  w_sockets : Z -> out_fd;
  w_ticks : nat
}.

(** Dereferencing a pointer that is NULL or dangling is undefined
    behaviour: the operation has no result. *)
Notation "'let?' x ':=' e 'in' k" :=
  (match e with
   | Some x => k
   | None => None
   end)
  (at level 10, x name, e at level 100, k at level 200).


Definition role_eqb (a b : GAME_ROLE) : bool :=
  match a, b with
  | NULL_ROLE, NULL_ROLE => true
  | FIRST_PLAYER_ROLE, FIRST_PLAYER_ROLE => true
  | SECOND_PLAYER_ROLE, SECOND_PLAYER_ROLE => true
  | _, _ => false
  end.

(** The bytes at a [char *]: the characters of the string and its
    terminator. *)
Definition c_bytes (s : string) : list byte :=
  map byte_of_ascii (c_chars s) ++ [x00].

Definition set_clients (w : WORLD) (cs : heap CLIENT) : WORLD :=
  mkWORLD cs (w_invs w) (w_players w) (w_sockets w) (w_ticks w).

Definition set_invs (w : WORLD) (invs : heap INVITATION) : WORLD :=
  mkWORLD (w_clients w) invs (w_players w) (w_sockets w) (w_ticks w).

Definition set_players (w : WORLD) (ps : heap PLAYER) : WORLD :=
  mkWORLD (w_clients w) (w_invs w) ps (w_sockets w) (w_ticks w).

Definition client_login (w : WORLD) (client player : nat)
  : option (Z * WORLD) :=
  let? c := deref (w_clients w) client in
  match Client.player c with
  | Some _ => Some (-1, w)
  | None =>
      let c1 := mkCLIENT (fd c) (Some player) (inviteHead c)
                         (Client.count c) (invites c) in
      let? pl := deref (w_players w) player in
      Some (0, set_players
                 (set_clients w (update (w_clients w) client c1))
                 (update (w_players w) player (player_ref pl)))
  end.

(** [inv_unref]: at zero the two clients are released and the
    invitation is freed, and the game it holds with it. *)
Definition inv_unref (w : WORLD) (inv : nat) : option WORLD :=
  let? i := deref (w_invs w) inv in
  if Invitation.count i - 1 =? 0 then
    let? clients1 := ClientRegistry.unref_at (w_clients w) (source i) in
    let? clients2 := ClientRegistry.unref_at clients1 (target i) in
    Some (set_invs (set_clients w clients2) (free (w_invs w) inv))
  else
    Some (set_invs w
            (update (w_invs w) inv
               (mkINV (source i) (source_role i) (target i)
                      (target_role i) (state i) (game i)
                      (Invitation.count i - 1)))).

(** [player_post_result] through the two pointers; the second store
    goes to the object as the first store left it. *)
Definition post_result_at (players : heap PLAYER) (player1 player2 : nat)
    (result : Z) : option (heap PLAYER) :=
  let? pl1 := deref players player1 in
  let? pl2 := deref players player2 in
  let '(q1, q2) := player_post_result pl1 pl2 result in
  let players1 := update players player1 (set_rating pl1 (rating q1)) in
  let? pl2' := deref players1 player2 in
  Some (update players1 player2 (set_rating pl2' (rating q2))).



Section Operations.

Variable host_le : bool.

(** What the [n]-th call of [clock_gettime] stores, [None] when it
    fails. *)
Variable clock_gettime : nat -> option (Z * Z).

(** The packet type codes of protocol.h, which is not among the
    sources. *)
Variables JEUX_INVITED_PKT JEUX_REVOKED_PKT JEUX_DECLINED_PKT
          JEUX_ACCEPTED_PKT JEUX_MOVED_PKT JEUX_RESIGNED_PKT
          JEUX_ENDED_PKT : Z.

(** A [calloc]ed header after the assignments to [type], [id], [role]
    and [size]. *)
Definition new_header (type id role size : Z) : list byte :=
  store host_le 2 OFF_SIZE size
    (store host_le 1 OFF_ROLE role
       (store host_le 1 OFF_ID id
          (store host_le 1 OFF_TYPE type calloc_header))).

(** [client_send_packet] through the pointer to the client. *)
Definition send_packet (w : WORLD) (client : nat) (pkt : list byte)
    (data : option (list byte)) : option (Z * WORLD) :=
  let? c := deref (w_clients w) client in
  let '(error, out) :=
    client_send_packet host_le (w_sockets w (fd c)) pkt data
                       (clock_gettime (w_ticks w)) in
  Some (error,
        mkWORLD (w_clients w) (w_invs w) (w_players w)
                (fun k => if k =? fd c then out else w_sockets w k)
                (S (w_ticks w))).


Definition remove_invitation_at (clients : heap CLIENT) (client inv : nat)
  : option (Z * heap CLIENT) :=
  let? c := deref clients client in
  let '(id, c1) := client_remove_invitation c inv in
  Some (id, update clients client c1).


Definition client_revoke_invitation (w : WORLD) (client : nat) (id : Z)
  : option (Z * WORLD) :=
  let? c := deref (w_clients w) client in
  match get_invite_node_from_id (inviteHead c) id with
  | None => Some (-1, w)
  | Some current =>
      let inv := invitation current in
      let? i := deref (w_invs w) inv in
      match inv_get_game i with
      | Some _ => Some (-1, w)
      | None =>
          let target := Invitation.target i in
          let? ct := deref (w_clients w) target in
          match get_invite_node_from_inv (inviteHead ct) inv with
          | None => Some (-1, w)
          | Some targetNode =>
              if negb (source i =? client)%nat then Some (-1, w)
              else
                let '(rc, i1) := inv_close i NULL_ROLE in
                if rc =? -1 then Some (-1, w)
                else
                  let w1 := set_invs w (update (w_invs w) inv i1) in
                  let? r1 := remove_invitation_at (w_clients w1) client
                                                  inv in
                  if fst r1 =? -1 then Some (-1, w1)
                  else
                    let? r2 := remove_invitation_at (snd r1) target inv in
                    let targetId := fst r2 in
                    if targetId =? -1
                    then Some (-1, set_clients w1 (snd r1))
                    else
                      let? w2 := inv_unref (set_clients w1 (snd r2)) inv in
                      send_packet w2 target
                        (new_header JEUX_REVOKED_PKT targetId 0 0) None
          end
      end
  end.

Definition client_decline_invitation (w : WORLD) (client : nat) (id : Z)
  : option (Z * WORLD) :=
  let? c := deref (w_clients w) client in
  match get_invite_node_from_id (inviteHead c) id with
  | None => Some (-1, w)
  | Some current =>
      let inv := invitation current in
      let? i := deref (w_invs w) inv in
      match inv_get_game i with
      | Some _ => Some (-1, w)
      | None =>
          let source := Invitation.source i in
          let? cs := deref (w_clients w) source in
          match get_invite_node_from_inv (inviteHead cs) inv with
          | None => Some (-1, w)
          | Some sourceNode =>
              if negb (target i =? client)%nat then Some (-1, w)
              else
                let '(rc, i1) := inv_close i NULL_ROLE in
                if rc =? -1 then Some (-1, w)
                else
                  let w1 := set_invs w (update (w_invs w) inv i1) in
                  let? r1 := remove_invitation_at (w_clients w1) client
                                                  inv in
                  if fst r1 =? -1 then Some (-1, w1)
                  else
                    let? r2 := remove_invitation_at (snd r1) source inv in
                    let sourceId := fst r2 in
                    if sourceId =? -1
                    then Some (-1, set_clients w1 (snd r1))
                    else
                      let? w2 := inv_unref (set_clients w1 (snd r2)) inv in
                      send_packet w2 source
                        (new_header JEUX_DECLINED_PKT sourceId 0 0) None
          end
      end
  end.

(** Returns the status, [*strp] and the world. *)
Definition client_accept_invitation (w : WORLD) (client : nat) (id : Z)
  : option (Z * option string * WORLD) :=
  let? c := deref (w_clients w) client in
  match get_invite_node_from_id (inviteHead c) id with
  | None => Some (-1, None, w)
  | Some current =>
      let targetInv := invitation current in
      let? i := deref (w_invs w) targetInv in
      match inv_get_game i with
      | Some _ => Some (-1, None, w)
      | None =>
          let source := Invitation.source i in
          let? cs := deref (w_clients w) source in
          match get_invite_node_from_inv (inviteHead cs) targetInv with
          | None => Some (-1, None, w)
          | Some node =>
              let sourceId := Client.id node in
              let '(error, i1) := inv_accept i in
              if error =? -1 then Some (-1, None, w)
              else
                let w1 := set_invs w (update (w_invs w) targetInv i1) in
                let sourceRole := source_role i1 in
                let? g := inv_get_game i1 in
                let gameState :=
                  if role_eqb sourceRole FIRST_PLAYER_ROLE
                  then Some (game_unparse_state g) else None in
                let len :=
                  match gameState with
                  | Some s => Z.of_nat (strlen s)
                  | None => 0
                  end in
                let strp :=
                  if role_eqb sourceRole FIRST_PLAYER_ROLE
                  then None else Some (game_unparse_state g) in
                let? r := send_packet w1 source
                            (new_header JEUX_ACCEPTED_PKT sourceId 0 len)
                            (option_map c_bytes gameState) in
                if fst r =? -1 then Some (-1, strp, snd r)
                else Some (0, strp, snd r)
          end
      end
  end.

(** [roleWinner], the code sent in the ENDED packets. *)
Definition roleWinner (winner : GAME_ROLE) : Z :=
  match winner with
  | FIRST_PLAYER_ROLE => 1
  | SECOND_PLAYER_ROLE => 2
  | NULL_ROLE => 0
  end.



(** The 1024-byte buffer of [client_make_move]: a newline, the state
    and, while the game goes on, the line that names the side to
    move. *)
Definition moved_text (g : GAME) (clientRole : GAME_ROLE) : list ascii :=
  [newline] ++ c_chars (game_unparse_state g)
  ++ (if game_is_over g =? 0
      then if role_eqb clientRole FIRST_PLAYER_ROLE
           then newline :: list_ascii_of_string "O to move" ++ [newline]
           else newline :: list_ascii_of_string "X to move" ++ [newline]
      else []).

Definition moved_buffer (g : GAME) (clientRole : GAME_ROLE) : list byte :=
  let text := map byte_of_ascii (moved_text g clientRole) in
  text ++ replicate (1024 - length text) x00.

Definition client_make_move (w : WORLD) (client : nat) (id : Z)
    (move : string) : option (Z * WORLD) :=
  let? c := deref (w_clients w) client in
  match get_invite_node_from_id (inviteHead c) id with
  | None => Some (-1, w)
  | Some current =>
      let inv := invitation current in
      let? i := deref (w_invs w) inv in
      match inv_get_game i with
      | None => Some (-1, w)
      | Some g =>
          let isSource := (client =? source i)%nat in
          let clientRole := if isSource then source_role i
                            else target_role i in
          let opponent := if isSource then target i else source i in
          let? co := deref (w_clients w) opponent in
          match game_parse_move g clientRole move with
          | None => Some (-1, w)
          | Some gameMove =>
              let? applied := game_apply_move g gameMove in
              if fst applied =? -1 then Some (-1, w)
              else
                let g1 := snd applied in
                let w1 := set_invs w (update (w_invs w) inv
                                        (set_game i (Some g1))) in
                match get_invite_node_from_inv (inviteHead co) inv with
                | None => Some (-1, w1)
                | Some opponentNode =>
                    let buffer := moved_buffer g1 clientRole in
                    let size := Z.of_nat (length (moved_text g1 clientRole)) in
                    let? s1 := send_packet w1 opponent
                                 (new_header JEUX_MOVED_PKT
                                    (Client.id opponentNode) 0 size)
                                 (Some buffer) in
                    if fst s1 =? -1 then Some (-1, snd s1)
                    else if game_is_over g1 =? 0 then Some (0, snd s1)
                    else
                      let winner := game_get_winner g1 in
                      let clientOutcome :=
                        if role_eqb winner clientRole then 1
                        else if role_eqb winner NULL_ROLE then 0
                        else 2 in
                      let code := roleWinner winner in
                      let? s2 := send_packet (snd s1) client
                                   (new_header JEUX_ENDED_PKT
                                      (Client.id current) code 0)
                                   None in
                      if fst s2 =? -1 then Some (-1, snd s2)
                      else
                        let? s3 := send_packet (snd s2) opponent
                                     (new_header JEUX_ENDED_PKT
                                        (Client.id opponentNode) code 0)
                                     None in
                        if fst s3 =? -1 then Some (-1, snd s3)
                        else
                          let? i2 := deref (w_invs (snd s3)) inv in
                          let '(error, i3) := inv_close i2 winner in
                          if error =? -1 then Some (-1, snd s3)
                          else
                            let w2 := set_invs (snd s3)
                                        (update (w_invs (snd s3)) inv i3) in
                            let? c2 := deref (w_clients w2) client in
                            let? o2 := deref (w_clients w2) opponent in
                            let? p1 := Client.player c2 in
                            let? p2 := Client.player o2 in
                            let? players1 :=
                              post_result_at (w_players w2) p1 p2
                                             clientOutcome in
                            let w3 := set_players w2 players1 in
                            let? r1 := remove_invitation_at (w_clients w3)
                                                            client inv in
                            if fst r1 =? -1 then Some (-1, w3)
                            else
                              let? r2 := remove_invitation_at (snd r1)
                                                              opponent inv in
                              if fst r2 =? -1
                              then Some (-1, set_clients w3 (snd r1))
                              else
                                let? w4 :=
                                  inv_unref (set_clients w3 (snd r2)) inv in
                                Some (0, w4)
                end
          end
      end
  end.

End Operations.

(** Two clients on descriptors 4 and 5, logged in as alice and bob,
    with no invitation between them. *)
Definition example_two_players : heap PLAYER :=
  [Some (mkPLAYER 1500 "alice" 3); Some (mkPLAYER 1500 "bob" 3)].


(** The same clients with an invitation from the first, to play
    second, to the other, each knowing it under the identifier 0. *)
Definition example_invited (st : INVITATION_STATE) (g : option GAME)
  : WORLD :=
  mkWORLD [Some (mkCLIENT 4 (Some 0%nat) [mkNODE 0 0%nat] 2 1);
           Some (mkCLIENT 5 (Some 1%nat) [mkNODE 0 0%nat] 2 1)]
          [Some (mkINV 0%nat SECOND_PLAYER_ROLE 1%nat FIRST_PLAYER_ROLE
                       st g 1)]
          example_two_players (fun _ => mkOut [] [] []) 0.

Definition example_clock (n : nat) : option (Z * Z) :=
  Some (Z.of_nat n, 0).

(** A new game after X has taken the centre. *)
Definition example_centre : GAME :=
  mkGAME [-1; -1; -1; -1; 1; -1; -1; -1; -1] 0 NULL_ROLE 1 0.



End ClientOps.

(* ===================================================================== *)
(** * server.c *)
(* ===================================================================== *)

Module Server.

(** The loop [while (value) { l++; value /= 10; }]; C division
    truncates toward zero.  An [int] reaches zero within ten rounds. *)
Fixpoint get_int_len_loop (fuel : nat) (l value : Z) : Z :=
  match fuel with
  | O => l
  | S fuel' =>
      if value =? 0 then l
      else get_int_len_loop fuel' (l + 1) (Z.quot value 10)
  end.

Definition get_int_len (value : Z) : Z :=
  get_int_len_loop 32 (if value =? 0 then 1 else 0) value.

End Server.

(* ===================================================================== *)
(** * Properties of game.c *)
(* ===================================================================== *)

Section GameFacts.
Import CString Game.

Lemma apply_move_over (g : GAME) (m : GAME_MOVE) :
  isOver g <> 0 -> game_apply_move g m = Some (-1, g).
Proof.
  intros Hov. unfold game_apply_move.
  destruct (isOver g =? 0) eqn:E; [apply Z.eqb_eq in E; contradiction|].
  reflexivity.
Qed.

Lemma resign_over (g : GAME) (r : GAME_ROLE) :
  isOver g <> 0 -> game_resign g r = (-1, g).
Proof.
  intros Hov. unfold game_resign.
  destruct (isOver g =? 0) eqn:E; [apply Z.eqb_eq in E; contradiction|].
  reflexivity.
Qed.

Lemma run_op_over (g : GAME) (op : game_op) :
  isOver g <> 0 -> run_op g op = Some (-1, g).
Proof.
  intros Hov. destruct op as [m|r]; simpl.
  - now apply apply_move_over.
  - now rewrite resign_over.
Qed.

(** C6. Once a game is over, every later [game_apply_move] and
    [game_resign] call returns -1 and leaves the game as it was: the
    cells, the piece expected to move and the winner stay the same
    through any sequence of calls. *)
Theorem over_is_final (g : GAME) (ops : list game_op) :
  isOver g <> 0 ->
  run_all g ops = Some (replicate (length ops) (-1), g).
Proof.
  intros Hov. induction ops as [|op ops IH]; simpl; [reflexivity|].
  rewrite (run_op_over g op Hov), IH. reflexivity.
Qed.

Lemma over_is_final_witness :
  let g := snd (game_resign game_create SECOND_PLAYER_ROLE) in
  isOver g <> 0 /\
  run_all g [OpMove (mkMOVE 1 5); OpResign FIRST_PLAYER_ROLE]
  = Some ([-1; -1], g).
Proof.
  split; [vm_compute; discriminate|].
  apply (over_is_final
           (snd (game_resign game_create SECOND_PLAYER_ROLE))
           [OpMove (mkMOVE 1 5); OpResign FIRST_PLAYER_ROLE]).
  vm_compute; discriminate.
Defined.

End GameFacts.

Section ParseFacts.
Import CString Game.

(** C8. For a move with a cell in 1..9 and piece X (1) or O (0),
    parsing the text [game_unparse_move] produces gives the same move
    back, whatever the game and role passed to the parser. *)
Theorem parse_unparse_roundtrip (g : GAME) (role : GAME_ROLE)
    (m : GAME_MOVE) :
  1 <= placement m <= 9 ->
  piece m = 1 \/ piece m = 0 ->
  game_parse_move g role (game_unparse_move m) = Some m.
Proof.
  destruct m as [pc pl]; simpl. intros Hpl Hpc.
  assert (Hcases : pl = 1 \/ pl = 2 \/ pl = 3 \/ pl = 4 \/ pl = 5 \/
                   pl = 6 \/ pl = 7 \/ pl = 8 \/ pl = 9) by lia.
  destruct Hpc as [-> | ->];
    repeat (destruct Hcases as [-> | Hcases]; [reflexivity|]);
    subst; reflexivity.
Qed.

Lemma parse_unparse_roundtrip_witness :
  1 <= placement (mkMOVE 0 7) <= 9 /\
  (piece (mkMOVE 0 7) = 1 \/ piece (mkMOVE 0 7) = 0) /\
  game_parse_move game_create SECOND_PLAYER_ROLE
                  (game_unparse_move (mkMOVE 0 7)) = Some (mkMOVE 0 7).
Proof.
  split; [simpl; lia|]. split; [right; reflexivity|].
  apply (parse_unparse_roundtrip game_create SECOND_PLAYER_ROLE
                                 (mkMOVE 0 7)).
  - simpl; lia.
  - right; reflexivity.
Defined.

Lemma scan_piece_first (cs : list ascii) :
  scan_piece cs = match first_piece cs with
                  | Some p => p
                  | None => -1
                  end.
Proof.
  unfold first_piece. induction cs as [|c cs IH]; simpl; [reflexivity|].
  unfold is_piece, piece_of in *.
  destruct (is_x c) eqn:Ex; simpl; [now rewrite Ex|].
  destruct (is_o c) eqn:Eo; simpl; [now rewrite Ex|].
  exact IH.
Qed.

Lemma first_piece_range (cs : list ascii) (p : Z) :
  first_piece cs = Some p -> p = 0 \/ p = 1.
Proof.
  unfold first_piece. destruct (find is_piece cs) as [c|]; [|discriminate].
  intros [= <-]. unfold piece_of. destruct (is_x c); auto.
Qed.

Lemma first_piece_some (cs : list ascii) :
  (exists p, first_piece cs = Some p) <->
  (exists c, In c cs /\ is_piece c = true).
Proof.
  unfold first_piece. split.
  - intros [p Hp]. destruct (find is_piece cs) as [c|] eqn:E;
      [|discriminate].
    exists c. now apply find_some in E.
  - intros [c [Hin Hc]]. destruct (find is_piece cs) as [c'|] eqn:E.
    + eauto.
    + apply (find_none _ _ E) in Hin. congruence.
Qed.

Lemma is_cell_not_nul (d : ascii) :
  is_cell d = true -> Ascii.eqb d NUL = false.
Proof.
  intros H. apply Ascii.eqb_neq. intros ->. discriminate H.
Qed.

Lemma is_cell_value (d : ascii) :
  is_cell d = true -> char_to_int d - 48 = cell_of d /\ 1 <= cell_of d <= 9.
Proof.
  unfold is_cell, char_to_int, cell_of. intros H.
  apply andb_prop in H as [H1 H2].
  apply Nat.leb_le in H1. apply Nat.leb_le in H2.
  destruct (Z.of_nat (nat_of_ascii d) <? 128) eqn:E.
  - lia.
  - apply Z.ltb_ge in E. lia.
Qed.

(** What the parser returns on any text that starts with a cell
    digit. *)
Lemma parse_cell_text (g : GAME) (role : GAME_ROLE) (d : ascii)
    (rest : string) :
  is_cell d = true ->
  game_parse_move g role (String d rest)
  = match first_piece (c_chars rest) with
    | Some p => Some (mkMOVE p (cell_of d))
    | None => None
    end.
Proof.
  intros Hd. unfold game_parse_move, first_char. simpl.
  rewrite (is_cell_not_nul d Hd). simpl.
  destruct (is_cell_value d Hd) as [-> Hr].
  replace ((cell_of d <=? 0) && (cell_of d >=? 10)) with false
    by (symmetry; apply andb_false_iff; left; apply Z.leb_gt; lia).
  rewrite scan_piece_first.
  destruct (first_piece (c_chars rest)) as [p|] eqn:E; [|reflexivity].
  destruct (first_piece_range _ _ E) as [-> | ->]; reflexivity.
Qed.

(** C1, as the code has it. On a text that starts with a digit 1..9,
    [game_parse_move] returns a move exactly when one of the following
    characters is X, O, x or o; the move then has that digit as its cell
    and the piece named by the first such character.  A text made of the
    digit alone is rejected. *)
Theorem parse_move_needs_piece (g : GAME) (role : GAME_ROLE) (d : ascii)
    (rest : string) :
  is_cell d = true ->
  ((exists m, game_parse_move g role (String d rest) = Some m) <->
   (exists c, In c (c_chars rest) /\ is_piece c = true)) /\
  (forall m, game_parse_move g role (String d rest) = Some m ->
             placement m = cell_of d /\
             first_piece (c_chars rest) = Some (piece m)) /\
  game_parse_move g role (String d EmptyString) = None.
Proof.
  intros Hd. rewrite !(parse_cell_text g role d _ Hd).
  split; [|split].
  - rewrite <- first_piece_some.
    destruct (first_piece (c_chars rest)) as [p|]; split.
    + eauto.
    + eauto.
    + intros [m Hm]; discriminate.
    + intros [p Hp]; discriminate.
  - intros m. destruct (first_piece (c_chars rest)) as [p|];
      [|discriminate].
    intros [= <-]. simpl. auto.
  - reflexivity.
Qed.

Lemma parse_move_needs_piece_witness :
  is_cell "5"%char = true /\
  game_parse_move game_create FIRST_PLAYER_ROLE "5-X"%string
  = Some (mkMOVE 1 5).
Proof.
  split; [reflexivity|].
  destruct (parse_move_needs_piece game_create FIRST_PLAYER_ROLE
              "5"%char "-X"%string eq_refl) as [[_ Hex] [Hval _]].
  destruct Hex as [m Hm].
  - exists "X"%char. split; [right; left; reflexivity | reflexivity].
  - rewrite Hm. destruct (Hval m Hm) as [Hpl Hpc].
    destruct m as [pc pl]; simpl in *. injection Hpc as <-.
    rewrite Hpl. reflexivity.
Defined.

(** C1 fails as stated: the text "5", a bare cell, is rejected. *)
Lemma bare_cell_rejected :
  game_parse_move game_create FIRST_PLAYER_ROLE "5"%string = None.
Proof. reflexivity. Qed.

(** The range test [placement <= 0 && placement >= 10] never holds, so
    no first character is refused: "aX" parses to cell 49. *)
Lemma cell_out_of_range_accepted :
  game_parse_move game_create FIRST_PLAYER_ROLE "aX"%string
  = Some (mkMOVE 1 49).
Proof. reflexivity. Qed.

End ParseFacts.

Section BoardFacts.
Import Game.

Ltac norm_orb :=
  repeat (rewrite ?orb_true_r, ?orb_false_r; cbn [orb]).

Lemma three_in_a_row_lines (g : GAME) :
  three_in_a_row g =
  line_full g 0 1 2 || line_full g 3 4 5 || line_full g 6 7 8 ||
  line_full g 0 3 6 || line_full g 1 4 7 || line_full g 2 5 8 ||
  line_full g 0 4 8 || line_full g 2 4 6.
Proof.
  unfold three_in_a_row, line_full. simpl.
  rewrite orb_false_r. rewrite !orb_assoc. reflexivity.
Qed.

Lemma three_in_a_row_board (g g' : GAME) :
  game_board g' = game_board g -> three_in_a_row g' = three_in_a_row g.
Proof.
  intros H. rewrite !three_in_a_row_lines. unfold line_full, cell.
  rewrite H. reflexivity.
Qed.

(** The loop over rows and columns ends by its own test after three
    rounds: more fuel than four changes nothing. *)
Lemma rows_cols_loop_fuel (k : nat) (g : GAME) :
  rows_cols_loop (4 + k) 0 0 g = rows_cols_loop 4 0 0 g.
Proof.
  simpl.
  repeat match goal with
         | |- context [if line_full g ?a ?b ?c then _ else _] =>
             destruct (line_full g a b c)
         end; reflexivity.
Qed.

Lemma line_winner_not_null (g : GAME) (i : nat) :
  line_winner g i <> NULL_ROLE.
Proof. unfold line_winner. destruct (cell g i =? 1); discriminate. Qed.

Lemma line_full_set_over (g : GAME) (w : GAME_ROLE) (a b c : nat) :
  line_full (set_over g w) a b c = line_full g a b c.
Proof. reflexivity. Qed.

(** [detect_end] touches neither the board nor the piece expected, ends
    the game with a winner exactly when some winning line is complete,
    and otherwise leaves the winner as it was. *)
Lemma detect_end_spec (g1 : GAME) :
  let g' := detect_end g1 in
  game_board g' = game_board g1 /\
  expectedPiece g' = expectedPiece g1 /\
  (three_in_a_row g1 = true -> isOver g' = 1 /\ winner g' <> NULL_ROLE) /\
  (three_in_a_row g1 = false ->
   isOver g1 = 0 -> isOver g' = 0 -> winner g' = winner g1) /\
  (three_in_a_row g1 = false ->
   isOver g1 = 0 -> isOver g' <> 0 -> winner g' = NULL_ROLE).
Proof.
  rewrite three_in_a_row_lines. unfold detect_end. cbn zeta.
  assert (Hwon : forall i,
    let g' := set_over g1 (line_winner g1 i) in
    game_board g' = game_board g1 /\
    expectedPiece g' = expectedPiece g1 /\
    (true = true -> isOver g' = 1 /\ winner g' <> NULL_ROLE) /\
    (true = false ->
     isOver g1 = 0 -> isOver g' = 0 -> winner g' = winner g1) /\
    (true = false ->
     isOver g1 = 0 -> isOver g' <> 0 -> winner g' = NULL_ROLE)).
  { intros i. simpl.
    split; [reflexivity|]. split; [reflexivity|].
    split; [intros _; split; [reflexivity|apply line_winner_not_null]|].
    split; discriminate. }
  destruct (line_full g1 0 4 8) eqn:D1;
    [norm_orb; exact (Hwon 0%nat)|].
  destruct (line_full g1 2 4 6) eqn:D2;
    [norm_orb; exact (Hwon 2%nat)|].
  simpl rows_cols_loop.
  destruct (line_full g1 0 1 2) eqn:R1; simpl;
    [norm_orb; exact (Hwon 0%nat)|].
  destruct (line_full g1 0 3 6) eqn:C1; simpl;
    [norm_orb; exact (Hwon 0%nat)|].
  destruct (line_full g1 3 4 5) eqn:R2; simpl;
    [norm_orb; exact (Hwon 3%nat)|].
  destruct (line_full g1 1 4 7) eqn:C2; simpl;
    [norm_orb; exact (Hwon 1%nat)|].
  destruct (line_full g1 6 7 8) eqn:R3; simpl;
    [norm_orb; exact (Hwon 6%nat)|].
  destruct (line_full g1 2 5 8) eqn:C3; simpl;
    [norm_orb; exact (Hwon 2%nat)|].
  clear Hwon.
  destruct (isOver g1 =? 0) eqn:Ov.
  - destruct (cleared g1); simpl;
      (split; [reflexivity|]); (split; [reflexivity|]);
      (split; [discriminate|]); split; intros; congruence.
  - apply Z.eqb_neq in Ov.
    split; [reflexivity|]. split; [reflexivity|].
    split; [discriminate|]. split; intros; congruence.
Qed.

End BoardFacts.

Section ReachableFacts.
Import Game.

Lemma count_in_cons (p x : Z) (l : list Z) :
  count_in p (x :: l) = (if x =? p then 1 else 0) + count_in p l.
Proof.
  unfold count_in. rewrite filter_cons.
  destruct (decide (x = p)) as [-> | Hne].
  - rewrite Z.eqb_refl. simpl length. lia.
  - apply Z.eqb_neq in Hne. rewrite Hne. lia.
Qed.

Lemma count_in_insert (p v old : Z) (l : list Z) (k : nat) :
  l !! k = Some old ->
  count_in p (<[k := v]> l) + (if old =? p then 1 else 0)
  = count_in p l + (if v =? p then 1 else 0).
Proof.
  revert k. induction l as [|x l IH]; intros k Hk; [discriminate|].
  destruct k as [|k]; simpl in *.
  - injection Hk as ->. rewrite !count_in_cons. lia.
  - rewrite !count_in_cons. specialize (IH k Hk). lia.
Qed.

Lemma game_inv_create : game_inv game_create.
Proof.
  unfold game_inv. split; [reflexivity|]. split; [right; reflexivity|].
  split; [reflexivity|]. split; [reflexivity|].
  split; [intros H; now contradiction H | discriminate].
Qed.

(** A move that is accepted was made on a running game, into an empty
    cell inside the board, with the piece expected. *)
Lemma apply_move_accepted (g g' : GAME) (m : GAME_MOVE) :
  game_apply_move g m = Some (0, g') ->
  exists k : nat,
    isOver g = 0 /\ (k < 9)%nat /\ Z.of_nat k = placement m - 1 /\
    cell g k = -1 /\ expectedPiece g = piece m /\
    g' = detect_end (mkGAME (<[k := piece m]> (game_board g))
                            (isOver g) (winner g) (count g)
                            (1 - expectedPiece g)).
Proof.
  unfold game_apply_move.
  destruct (isOver g =? 0) eqn:Ov; simpl; [|discriminate].
  destruct ((placement m - 1 <? 0) || (9 <=? placement m - 1)) eqn:Rg;
    [discriminate|].
  apply orb_false_elim in Rg as [R1 R2].
  apply Z.ltb_ge in R1. apply Z.leb_gt in R2.
  destruct (cell g (Z.to_nat (placement m - 1)) =? -1) eqn:Ce; simpl;
    [|discriminate].
  destruct (expectedPiece g =? piece m) eqn:Ep; simpl; [|discriminate].
  intros [= <-]. exists (Z.to_nat (placement m - 1)).
  apply Z.eqb_eq in Ov, Ce, Ep. repeat split; auto; lia.
Qed.

Lemma game_inv_move (g g' : GAME) (m : GAME_MOVE) :
  game_inv g -> game_apply_move g m = Some (0, g') -> game_inv g'.
Proof.
  intros (Hlen & Hexp & Hcnt & Hrun & Hwin) Hmove.
  destruct (apply_move_accepted g g' m Hmove)
    as (k & Hov & Hk & _ & Hcell & Hpc & ->).
  remember (mkGAME (<[k := piece m]> (game_board g)) (isOver g)
                   (winner g) (count g) (1 - expectedPiece g))
    as g1 eqn:Eg1.
  assert (Hb1 : game_board g1 = <[k := piece m]> (game_board g))
    by (subst g1; reflexivity).
  assert (He1 : expectedPiece g1 = 1 - expectedPiece g)
    by (subst g1; reflexivity).
  assert (Ho1 : isOver g1 = 0) by (subst g1; exact Hov).
  assert (Hw1 : winner g1 = NULL_ROLE) by (subst g1; exact (Hrun Hov)).
  clear Eg1 Hmove.
  destruct (detect_end_spec g1) as (Hb & He & Hyes & Hno0 & Hno1).
  assert (Hlook : game_board g !! k = Some (-1)).
  { unfold cell in Hcell. rewrite <- Hcell.
    apply list_lookup_lookup_total_lt. lia. }
  pose proof (count_in_insert 1 (piece m) (-1) _ k Hlook) as H1.
  pose proof (count_in_insert 0 (piece m) (-1) _ k Hlook) as H0.
  simpl in H1, H0.
  unfold game_inv, count_piece in *. rewrite Hb, He, Hb1, He1.
  rewrite (three_in_a_row_board g1 (detect_end g1) Hb).
  split; [rewrite length_insert; exact Hlen|].
  split; [lia|].
  split.
  { rewrite <- Hpc in H1, H0 |- *.
    destruct Hexp as [E | E]; rewrite E in *; simpl in H1, H0; lia. }
  destruct (three_in_a_row g1) eqn:T.
  - destruct (Hyes eq_refl) as [Hov' Hw]. split.
    + intros H. rewrite H in Hov'. discriminate.
    + split; auto.
  - assert (Hw : winner (detect_end g1) = NULL_ROLE).
    { destruct (Z.eq_dec (isOver (detect_end g1)) 0) as [E | E].
      - rewrite (Hno0 eq_refl Ho1 E). exact Hw1.
      - apply (Hno1 eq_refl Ho1 E). }
    split; [intros _; exact Hw|].
    split; [intros H; contradiction | discriminate].
Qed.

Lemma reachable_by_moves_inv (g : GAME) :
  reachable_by_moves g -> game_inv g.
Proof.
  induction 1 as [|g m g' _ IH Hm]; [apply game_inv_create|].
  exact (game_inv_move g g' m IH Hm).
Qed.

Lemma resign_winner (g g' : GAME) (r : GAME_ROLE) :
  game_resign g r = (0, g') -> isOver g' <> 0 /\ winner g' <> NULL_ROLE.
Proof.
  unfold game_resign. destruct (isOver g =? 0); simpl; [|discriminate].
  destruct r; intros [= <-]; simpl; split; discriminate.
Qed.

(** A reachable game was built by moves alone, or has been resigned. *)
Lemma reachable_split (g : GAME) :
  reachable g ->
  reachable_by_moves g \/ (isOver g <> 0 /\ winner g <> NULL_ROLE).
Proof.
  induction 1 as [|g op g' _ IH Hop]; [left; constructor|].
  destruct op as [m | r]; simpl in Hop.
  - destruct IH as [IH | [Hov _]].
    + left. econstructor; eauto.
    + rewrite (apply_move_over g m Hov) in Hop. discriminate.
  - right. injection Hop as Hop. eapply resign_winner; eauto.
Qed.

(** Running accepted calls from a reachable game stays reachable. *)
Lemma reachable_run_all (ops : list game_op) :
  forall g g', reachable g ->
    run_all g ops = Some (replicate (length ops) 0, g') -> reachable g'.
Proof.
  induction ops as [|op ops IH]; simpl; intros g g' Hg Hrun.
  - injection Hrun as <-. exact Hg.
  - destruct (run_op g op) as [[rc g1]|] eqn:E; [|discriminate].
    destruct (run_all g1 ops) as [[rcs g2]|] eqn:E2; [|discriminate].
    injection Hrun as -> -> ->.
    apply (IH g1 g'); [|exact E2]. econstructor; eauto.
Qed.

Lemma reachable_by_moves_run (ms : list GAME_MOVE) :
  forall g g', reachable_by_moves g ->
    run_all g (map OpMove ms) = Some (replicate (length ms) 0, g') ->
    reachable_by_moves g'.
Proof.
  induction ms as [|m ms IH]; simpl; intros g g' Hg Hrun.
  - injection Hrun as <-. exact Hg.
  - destruct (game_apply_move g m) as [[rc g1]|] eqn:E; [|discriminate].
    destruct (run_all g1 (map OpMove ms)) as [[rcs g2]|] eqn:E2;
      [|discriminate].
    injection Hrun as -> -> ->.
    apply (IH g1 g'); [|exact E2]. econstructor; eauto.
Qed.

(** C7, as the code has it. In every state reached from [game_create]
    by accepted moves and resignations, a complete winning line implies
    a winner; and in the states reached by accepted moves alone there is
    a winner exactly when a winning line is complete. *)
Theorem winner_iff_line (g : GAME) :
  reachable g ->
  (three_in_a_row g = true -> winner g <> NULL_ROLE) /\
  (reachable_by_moves g ->
   (winner g <> NULL_ROLE <-> three_in_a_row g = true)).
Proof.
  intros Hr. split.
  - destruct (reachable_split g Hr) as [Hm | [_ Hw]].
    + apply (reachable_by_moves_inv g Hm).
    + intros _. exact Hw.
  - intros Hm. apply (reachable_by_moves_inv g Hm).
Qed.

Lemma scenario_by_moves : reachable_by_moves scenario_game.
Proof.
  apply (reachable_by_moves_run scenario_moves game_create);
    [constructor | reflexivity].
Qed.

Lemma scenario_reachable : reachable scenario_game.
Proof.
  apply (reachable_run_all (map OpMove scenario_moves) game_create);
    [constructor | reflexivity].
Qed.

Lemma winner_iff_line_witness :
  reachable scenario_game /\
  winner scenario_game = FIRST_PLAYER_ROLE /\
  three_in_a_row scenario_game = true.
Proof.
  split; [exact scenario_reachable|].
  split; [reflexivity|].
  apply (winner_iff_line scenario_game scenario_reachable).
  - exact scenario_by_moves.
  - vm_compute. discriminate.
Defined.

(** C7 fails as stated: after [game_create] and a resignation by the
    first player the winner is the second player and the board is
    empty. *)
Lemma winner_without_line :
  ~ (forall g, reachable g ->
       (winner g <> NULL_ROLE <-> three_in_a_row g = true)).
Proof.
  intros H.
  assert (Hr : reachable (snd (game_resign game_create FIRST_PLAYER_ROLE))).
  { apply (reach_op game_create (OpResign FIRST_PLAYER_ROLE));
      [constructor | reflexivity]. }
  apply H in Hr. vm_compute in Hr.
  assert (Hf : false = true) by (apply Hr; discriminate).
  discriminate Hf.
Qed.

(** C10. In every state reached from [game_create] by accepted moves,
    the number of X pieces minus the number of O pieces is 0 or 1, and
    it is 0 exactly when X is the piece expected to move. *)
Theorem piece_counts_alternate (g : GAME) :
  reachable_by_moves g ->
  (count_piece 1 g - count_piece 0 g = 0 \/
   count_piece 1 g - count_piece 0 g = 1) /\
  (count_piece 1 g - count_piece 0 g = 0 <-> expectedPiece g = 1).
Proof.
  intros Hm.
  destruct (reachable_by_moves_inv g Hm) as (_ & Hexp & Hcnt & _).
  split; [lia|]. split; intros; lia.
Qed.

Lemma piece_counts_alternate_witness :
  reachable_by_moves scenario_game /\
  count_piece 1 scenario_game - count_piece 0 scenario_game = 1.
Proof.
  split; [exact scenario_by_moves|].
  destruct (piece_counts_alternate scenario_game scenario_by_moves)
    as [[H | H] _]; [|exact H].
  vm_compute in H. discriminate H.
Defined.

End ReachableFacts.

(* ===================================================================== *)
(** * Properties of invitation.c *)
(* ===================================================================== *)

Section InvitationFacts.
Import Game Invitation.

Lemma reachable_inv_ok (inv : INVITATION) :
  Invitation.reachable inv -> inv_ok inv = true.
Proof.
  induction 1 as [s t sr tr inv Hc | inv _ IH | inv role _ IH
                 | inv g m rc g' _ IH Hg _ | inv _ IH].
  - unfold inv_create in Hc. destruct (s =? t)%nat; [discriminate|].
    injection Hc as <-. reflexivity.
  - destruct inv as [s sr t tr st g c]. unfold inv_ok, inv_accept in *.
    simpl in *. destruct st; simpl; auto.
  - destruct inv as [s sr t tr st g c]. unfold inv_ok, inv_close in *.
    simpl in *. destruct st; simpl; auto;
      (destruct g as [g|]; simpl; [|reflexivity];
       destruct (negb (game_is_over g =? 0)); simpl; [reflexivity|];
       destruct role; simpl; auto).
  - destruct inv as [s sr t tr st g0 c]. unfold inv_ok in *.
    simpl in *. subst g0. destruct st; auto.
  - destruct inv as [s sr t tr st g c]. exact IH.
Qed.

(** An open invitation has no game and an accepted one has a game. *)
Lemma reachable_game_present (inv : INVITATION) :
  Invitation.reachable inv ->
  (state inv = INV_OPEN_STATE -> game inv = None) /\
  (state inv = INV_ACCEPTED_STATE -> exists g, game inv = Some g).
Proof.
  intros Hr. apply reachable_inv_ok in Hr. unfold inv_ok in Hr.
  destruct (state inv), (game inv) as [g|]; try discriminate;
    split; intros; try discriminate; eauto.
Qed.

Lemma set_game_same (inv : INVITATION) (g : GAME) :
  game inv = Some g -> set_game inv (Some g) = inv.
Proof. destruct inv; simpl; intros ->; reflexivity. Qed.

(** C5. On every invitation the server can build: [inv_accept]
    succeeds exactly from OPEN, moving to ACCEPTED with a new game;
    [inv_close] succeeds from OPEN with any role, from ACCEPTED with the
    null role only when the game is over, and from ACCEPTED with another
    role with the game resigned for that role (a game already over is
    left as it is, which is what resigning it does); it fails from
    CLOSED; and a call that fails leaves the invitation as it was. *)
Theorem invitation_state_machine (inv : INVITATION) (role : GAME_ROLE) :
  Invitation.reachable inv ->
  (state inv = INV_OPEN_STATE ->
   inv_accept inv
   = (0, set_game (set_state inv INV_ACCEPTED_STATE) (Some game_create)))
  /\
  (state inv <> INV_OPEN_STATE -> inv_accept inv = (-1, inv)) /\
  (state inv = INV_OPEN_STATE ->
   inv_close inv role = (0, set_state inv INV_CLOSED_STATE)) /\
  (state inv = INV_ACCEPTED_STATE ->
   exists g, game inv = Some g /\
     (role = NULL_ROLE -> isOver g <> 0 ->
      inv_close inv role = (0, set_state inv INV_CLOSED_STATE)) /\
     (role = NULL_ROLE -> isOver g = 0 ->
      inv_close inv role = (-1, inv)) /\
     (role <> NULL_ROLE ->
      inv_close inv role
      = (0, set_state (set_game inv (Some (snd (game_resign g role))))
                      INV_CLOSED_STATE))) /\
  (state inv = INV_CLOSED_STATE -> inv_close inv role = (-1, inv)) /\
  (fst (inv_accept inv) = -1 -> snd (inv_accept inv) = inv) /\
  (fst (inv_close inv role) = -1 -> snd (inv_close inv role) = inv).
Proof.
  intros Hr. destruct (reachable_game_present inv Hr) as [Hopen Hacc].
  split; [|split; [|split; [|split; [|split; [|split]]]]].
  - intros E. unfold inv_accept. rewrite E. reflexivity.
  - intros E. unfold inv_accept.
    destruct (state inv); [contradiction | reflexivity | reflexivity].
  - intros E. unfold inv_close. rewrite E, (Hopen E). reflexivity.
  - intros E. destruct (Hacc E) as [g Hg]. exists g.
    split; [exact Hg|]. unfold inv_close, game_is_over.
    rewrite E, Hg. split; [|split].
    + intros _ Hov. apply Z.eqb_neq in Hov. rewrite Hov. reflexivity.
    + intros -> Hov. rewrite Hov. reflexivity.
    + intros Hrole. destruct (isOver g =? 0) eqn:Ov; simpl.
      * destruct role; [contradiction | reflexivity | reflexivity].
      * apply Z.eqb_neq in Ov. rewrite (resign_over g role Ov). simpl.
        rewrite (set_game_same inv g Hg). reflexivity.
  - intros E. unfold inv_close. rewrite E. reflexivity.
  - unfold inv_accept. destruct (state inv); simpl;
      [discriminate | reflexivity | reflexivity].
  - unfold inv_close. destruct (state inv); simpl; try reflexivity;
      (destruct (game inv) as [g|]; simpl; [|discriminate];
       destruct (negb (game_is_over g =? 0)); simpl; [discriminate|];
       destruct role; simpl; try discriminate; reflexivity).
Qed.

Lemma invitation_state_machine_witness :
  let inv := snd (inv_accept
                    (mkINV 1%nat FIRST_PLAYER_ROLE 2%nat SECOND_PLAYER_ROLE
                           INV_OPEN_STATE None 1)) in
  Invitation.reachable inv /\
  inv_close inv NULL_ROLE = (-1, inv) /\
  state (snd (inv_close inv SECOND_PLAYER_ROLE)) = INV_CLOSED_STATE.
Proof.
  assert (Hr : Invitation.reachable
                 (snd (inv_accept
                         (mkINV 1%nat FIRST_PLAYER_ROLE 2%nat SECOND_PLAYER_ROLE
                                INV_OPEN_STATE None 1)))).
  { apply reach_accept.
    apply (reach_create 1%nat 2%nat FIRST_PLAYER_ROLE SECOND_PLAYER_ROLE).
    reflexivity. }
  split; [exact Hr|]. split.
  - destruct (invitation_state_machine _ NULL_ROLE Hr)
      as (_ & _ & _ & Hacc & _).
    destruct (Hacc eq_refl) as (g & Hg & _ & Hrun & _).
    apply Hrun; [reflexivity|]. simpl in Hg. injection Hg as <-.
    reflexivity.
  - destruct (invitation_state_machine _ SECOND_PLAYER_ROLE Hr)
      as (_ & _ & _ & Hacc & _).
    destruct (Hacc eq_refl) as (g & Hg & _ & _ & Hres).
    rewrite Hres; [reflexivity | discriminate].
Defined.

End InvitationFacts.

(* ===================================================================== *)
(** * Properties of client.c *)
(* ===================================================================== *)

Section ClientFacts.
Import Protocol Client.

(** C3 does not hold of the code: [invites] is both the number of
    nodes and the next identifier, and removing a node decrements it.
    After adding invitations 10 and 20, removing 10 and adding 30, the
    identifiers handed out are 0, 1 and 1; the list then holds 20 and 30
    under the same identifier, and a search for identifier 1 finds 20,
    not the invitation just added. *)
Theorem invitation_id_reused :
  let '(ids, c) :=
    run_ops (client_create 4) [Add 10; Add 20; Remove 10; Add 30]%nat in
  ids = [0; 1; 1] /\
  inviteHead c = [mkNODE 1 20%nat; mkNODE 1 30%nat] /\
  get_invite_node_from_id (inviteHead c) 1 = Some (mkNODE 1 20%nat).
Proof. vm_compute. repeat split. Qed.

End ClientFacts.

(* ===================================================================== *)
(** * Properties of protocol.c and of the packets client.c sends *)
(* ===================================================================== *)

Section ProtocolFacts.
Import Protocol Client.

Lemma write_calls (fd : out_fd) (buf : list byte) :
  w_calls (snd (write fd buf)) = w_calls fd ++ [buf].
Proof.
  unfold write. destruct (w_script fd) as [|[|bs] rest]; reflexivity.
Qed.

Lemma read_calls (fd : in_fd) (n : nat) :
  r_calls (read_fd (read fd n)) = S (r_calls fd).
Proof.
  unfold read, read_fd.
  destruct (r_script fd) as [|[|bs] rest]; reflexivity.
Qed.

Lemma read_status_range (fd : in_fd) (n : nat) :
  read_status (read fd n) = -1 \/ 0 <= read_status (read fd n).
Proof.
  unfold read, read_status.
  destruct (r_script fd) as [|[|bs] rest]; simpl; lia.
Qed.

(** The first buffer [proto_send_packet] hands to [write] is the
    header. *)
Lemma send_packet_calls (host_le : bool) (fd : out_fd) (hdr : list byte)
    (data : option (list byte)) :
  exists rest,
    sent_since fd (snd (proto_send_packet host_le fd hdr data))
    = take HDR_BYTES hdr :: rest /\ (length rest <= 1)%nat.
Proof.
  unfold proto_send_packet, sent_since.
  pose proof (write_calls fd (take HDR_BYTES hdr)) as H1.
  destruct (write fd (take HDR_BYTES hdr)) as [n1 fd1]. simpl in H1.
  destruct (n1 =? -1).
  { exists []. simpl. rewrite H1, drop_app_length. split; [reflexivity|lia]. }
  destruct data as [d|].
  2:{ exists []. simpl. rewrite H1, drop_app_length.
      split; [reflexivity|lia]. }
  destruct (0 <? ntohs host_le (hdr_size host_le hdr)).
  2:{ exists []. simpl. rewrite H1, drop_app_length.
      split; [reflexivity|lia]. }
  pose proof (write_calls fd1
    (take (Z.to_nat (ntohs host_le (hdr_size host_le hdr))) d)) as H2.
  destruct (write fd1 _) as [n2 fd2]. simpl in H2.
  exists [take (Z.to_nat (ntohs host_le (hdr_size host_le hdr))) d].
  assert (Hc : w_calls (snd (if n2 =? -1 then (-1, fd2) else (0, fd2)))
               = w_calls fd2) by (destruct (n2 =? -1); reflexivity).
  rewrite Hc, H2, H1, <- app_assoc, drop_app_length.
  split; [reflexivity | simpl; lia].
Qed.

Lemma byte_to_Z_to_byte (z : Z) : byte_to_Z (Z_to_byte z) = z mod 256.
Proof.
  unfold byte_to_Z, Z_to_byte.
  assert (Hr : 0 <= z mod 256 < 256) by (apply Z.mod_pos_bound; lia).
  destruct (Byte.of_N (Z.to_N (z mod 256))) as [b|] eqn:E.
  - apply Byte.to_of_N in E. rewrite E. lia.
  - apply Byte.of_N_None_iff in E. lia.
Qed.

Lemma byte_to_Z_range (b : byte) : 0 <= byte_to_Z b < 256.
Proof.
  unfold byte_to_Z. pose proof (Byte.to_N_bounded b). lia.
Qed.

Lemma le_decode_nonneg (bs : list byte) : 0 <= le_decode bs.
Proof.
  induction bs as [|b bs IH]; simpl; [lia|].
  pose proof (byte_to_Z_range b). lia.
Qed.

Lemma hdr_size_nonneg (host_le : bool) (hdr : list byte) :
  0 <= hdr_size host_le hdr.
Proof.
  unfold hdr_size, load, host_decode.
  destruct host_le; apply le_decode_nonneg.
Qed.

(** The header [client_send_packet] hands to [write] keeps the first
    four bytes of the packet it was given. *)
Lemma send_packet_first (host_le : bool) (out : out_fd)
    (b0 b1 b2 b3 : byte) (tl : list byte) (data : option (list byte))
    (clock : option (Z * Z)) :
  length tl = 12%nat ->
  exists hdr rest,
    sent_since out
      (snd (client_send_packet host_le out (b0 :: b1 :: b2 :: b3 :: tl)
                               data clock))
    = hdr :: rest /\
    length hdr = 16%nat /\ take 4 hdr = [b0; b1; b2; b3].
Proof.
  intros Hlen.
  do 12 (destruct tl as [|? tl]; [discriminate|]).
  destruct tl; [|discriminate].
  unfold client_send_packet.
  destruct (match clock with
            | Some ts => ts
            | None => (0, 0)
            end) as [sec nsec].
  match goal with
  | |- context [proto_send_packet host_le out ?p data] =>
      destruct (send_packet_calls host_le out p data) as [rest [Hs _]];
      exists (take HDR_BYTES p), rest
  end.
  split; [exact Hs|].
  destruct host_le; split; reflexivity.
Qed.

(** C9. The header that [client_send_ack] and [client_send_nack] hand
    to [write] has the ACK (NACK) type code and zero in its [id] and
    [role] bytes, for every payload, clock and descriptor; so has the
    answer to an ACCEPT request, whatever invitation the request named
    and whatever [client_accept_invitation] returned. *)
Theorem ack_nack_carry_no_id (host_le : bool) (ACK NACK : Z)
    (out : out_fd) (data : option (list byte)) (datalen : Z)
    (clock : option (Z * Z)) (req_id error : Z)
    (strp : option (list byte)) :
  let first_sent r := hd [] (sent_since out (snd r)) in
  let ack :=
    first_sent (client_send_ack host_le ACK out data datalen clock) in
  let nack := first_sent (client_send_nack host_le NACK out clock) in
  let reply :=
    first_sent (accept_reply host_le ACK NACK out req_id error strp
                             clock) in
  (length ack = 16%nat /\ hdr_type host_le ack = ACK mod 256 /\
   hdr_id host_le ack = 0 /\ hdr_role host_le ack = 0) /\
  (length nack = 16%nat /\ hdr_type host_le nack = NACK mod 256 /\
   hdr_id host_le nack = 0 /\ hdr_role host_le nack = 0) /\
  (length reply = 16%nat /\
   hdr_id host_le reply = 0 /\ hdr_role host_le reply = 0).
Proof.
  assert (Hfour : forall t (hdr : list byte),
            length hdr = 16%nat ->
            take 4 hdr = [Z_to_byte t; x00; x00; x00] ->
            hdr_type host_le hdr = t mod 256 /\
            hdr_id host_le hdr = 0 /\ hdr_role host_le hdr = 0).
  { intros t hdr Hl Ht.
    do 4 (destruct hdr as [|? hdr]; [discriminate|]).
    injection Ht as -> -> -> ->.
    unfold hdr_type, hdr_id, hdr_role, load, host_decode.
    destruct host_le; simpl; rewrite byte_to_Z_to_byte;
      repeat split; lia. }
  assert (Hack : forall d n,
    let h := hd [] (sent_since out
                (snd (client_send_ack host_le ACK out d n clock))) in
    length h = 16%nat /\ hdr_type host_le h = ACK mod 256 /\
    hdr_id host_le h = 0 /\ hdr_role host_le h = 0).
  { intros d n. unfold client_send_ack.
    match goal with
    | |- context [client_send_packet host_le out ?p d clock] =>
        assert (Hp : exists tl, p = Z_to_byte ACK :: x00 :: x00 :: x00 :: tl
                                /\ length tl = 12%nat)
          by (destruct host_le; eexists; split; reflexivity)
    end.
    destruct Hp as (tl & -> & Htl).
    destruct (send_packet_first host_le out (Z_to_byte ACK) x00 x00 x00
                tl d clock Htl)
      as (hdr & rest & -> & Hl & Ht).
    simpl. split; [exact Hl|]. exact (Hfour ACK hdr Hl Ht). }
  assert (Hnack :
    let h := hd [] (sent_since out
                (snd (client_send_nack host_le NACK out clock))) in
    length h = 16%nat /\ hdr_type host_le h = NACK mod 256 /\
    hdr_id host_le h = 0 /\ hdr_role host_le h = 0).
  { unfold client_send_nack.
    match goal with
    | |- context [client_send_packet host_le out ?p None clock] =>
        assert (Hp : exists tl, p = Z_to_byte NACK :: x00 :: x00 :: x00 :: tl
                                /\ length tl = 12%nat)
          by (destruct host_le; eexists; split; reflexivity)
    end.
    destruct Hp as (tl & -> & Htl).
    destruct (send_packet_first host_le out (Z_to_byte NACK) x00 x00 x00
                tl None clock Htl)
      as (hdr & rest & -> & Hl & Ht).
    simpl. split; [exact Hl|]. exact (Hfour NACK hdr Hl Ht). }
  cbv zeta in *. split; [apply Hack|]. split; [exact Hnack|].
  unfold accept_reply. destruct (error =? -1).
  - destruct Hnack as (H1 & _ & H2 & H3). auto.
  - destruct strp as [s|].
    + destruct (Hack (Some s) (Z.of_nat (length s))) as (H1 & _ & H2 & H3).
      auto.
    + destruct (Hack None 0) as (H1 & _ & H2 & H3). auto.
Qed.

(** C4, as the code has it. [proto_recv_packet] makes one [read] call
    for the header and, when the size field it then finds is not zero,
    one more for the payload; [proto_send_packet] makes one [write] call
    for the header and, when the size is not zero and a payload is
    given, one more for the payload.  Neither repeats a call, whatever
    number of bytes the call transferred.  A call that fails makes the
    function return -1, and so does end of file at the header; a
    header and a payload call that each transferred something make it
    return 0. *)
Theorem one_call_per_part (host_le : bool) (fd : in_fd)
    (hdr : list byte) (out : out_fd) (shdr : list byte)
    (data : option (list byte)) :
  let r := proto_recv_packet host_le fd hdr in
  let rd1 := read fd HDR_BYTES in
  let hdr1 := overlay (read_bytes rd1) (swap_stale host_le hdr) in
  let size := hdr_size host_le hdr1 in
  let rd2 := read (read_fd rd1) (Z.to_nat size) in
  let s := proto_send_packet host_le out shdr data in
  let wr1 := write out (take HDR_BYTES shdr) in
  let ssize := ntohs host_le (hdr_size host_le shdr) in
  (read_status rd1 = -1 \/ read_status rd1 = 0 ->
   recv_status r = -1 /\ r_calls (recv_fd r) = S (r_calls fd)) /\
  (0 < read_status rd1 -> size = 0 ->
   recv_status r = 0 /\ r_calls (recv_fd r) = S (r_calls fd)) /\
  (0 < read_status rd1 -> 0 < size ->
   r_calls (recv_fd r) = S (S (r_calls fd)) /\
   (read_status rd2 = -1 -> recv_status r = -1) /\
   (0 < read_status rd2 -> recv_status r = 0)) /\
  (fst wr1 = -1 ->
   fst s = -1 /\ sent_since out (snd s) = [take HDR_BYTES shdr]) /\
  (fst wr1 <> -1 -> data = None \/ ssize <= 0 ->
   fst s = 0 /\ sent_since out (snd s) = [take HDR_BYTES shdr]) /\
  (fst wr1 <> -1 -> 0 < ssize ->
   forall d, data = Some d ->
     let wr2 := write (snd wr1) (take (Z.to_nat ssize) d) in
     sent_since out (snd s)
     = [take HDR_BYTES shdr; take (Z.to_nat ssize) d] /\
     (fst wr2 = -1 -> fst s = -1) /\
     (fst wr2 <> -1 -> fst s = 0)).
Proof.
  cbv zeta. split; [|split; [|split; [|split; [|split]]]].
  - unfold proto_recv_packet, recv_status, recv_fd.
    pose proof (read_calls fd HDR_BYTES) as Hc.
    destruct (read fd HDR_BYTES) as [[n1 bs1] fd1].
    unfold read_status, read_fd in *. simpl in *.
    intros [-> | ->]; simpl; auto.
  - unfold proto_recv_packet, recv_status, recv_fd.
    pose proof (read_calls fd HDR_BYTES) as Hc.
    destruct (read fd HDR_BYTES) as [[n1 bs1] fd1].
    unfold read_status, read_bytes, read_fd in *. simpl in *.
    intros Hpos Hz.
    destruct (n1 =? -1) eqn:E1; [apply Z.eqb_eq in E1; lia|].
    destruct (n1 =? 0) eqn:E0; [apply Z.eqb_eq in E0; lia|].
    rewrite Hz. simpl. auto.
  - unfold proto_recv_packet, recv_status, recv_fd.
    pose proof (read_calls fd HDR_BYTES) as Hc.
    destruct (read fd HDR_BYTES) as [[n1 bs1] fd1].
    unfold read_status, read_bytes, read_fd in *. simpl in *.
    intros Hpos Hsz.
    destruct (n1 =? -1) eqn:E1; [apply Z.eqb_eq in E1; lia|].
    destruct (n1 =? 0) eqn:E0; [apply Z.eqb_eq in E0; lia|].
    apply Z.ltb_lt in Hsz. rewrite Hsz.
    match goal with
    | |- context [read fd1 ?n] =>
        pose proof (read_calls fd1 n) as Hc2;
        destruct (read fd1 n) as [[n2 bs2] fd2]
    end.
    unfold read_fd in Hc2. simpl in *.
    split; [destruct (n2 =? -1); simpl; congruence|].
    split.
    + intros ->. reflexivity.
    + intros H2. destruct (n2 =? -1) eqn:E2;
        [apply Z.eqb_eq in E2; lia | reflexivity].
  - unfold proto_send_packet, sent_since.
    pose proof (write_calls out (take HDR_BYTES shdr)) as Hc.
    destruct (write out (take HDR_BYTES shdr)) as [n1 fd1].
    simpl in *. intros ->. simpl.
    rewrite Hc, drop_app_length. auto.
  - unfold proto_send_packet, sent_since.
    pose proof (write_calls out (take HDR_BYTES shdr)) as Hc.
    destruct (write out (take HDR_BYTES shdr)) as [n1 fd1].
    simpl in *. intros Hn Hno.
    apply Z.eqb_neq in Hn. rewrite Hn.
    destruct data as [d|].
    + destruct Hno as [Hno | Hno]; [discriminate|].
      apply Z.ltb_ge in Hno. rewrite Hno. simpl.
      rewrite Hc, drop_app_length. auto.
    + simpl. rewrite Hc, drop_app_length. auto.
  - unfold proto_send_packet, sent_since.
    pose proof (write_calls out (take HDR_BYTES shdr)) as Hc.
    destruct (write out (take HDR_BYTES shdr)) as [n1 fd1].
    simpl in *. intros Hn Hsz d ->.
    apply Z.eqb_neq in Hn. rewrite Hn.
    apply Z.ltb_lt in Hsz. rewrite Hsz.
    match goal with
    | |- context [write fd1 ?b] =>
        pose proof (write_calls fd1 b) as Hc2;
        destruct (write fd1 b) as [n2 fd2]
    end.
    simpl in *. split.
    + assert (Hw : w_calls (snd (if n2 =? -1 then (-1, fd2) else (0, fd2)))
                   = w_calls fd2) by (destruct (n2 =? -1); reflexivity).
      rewrite Hw, Hc2, Hc, <- app_assoc, drop_app_length. reflexivity.
    + split.
      * intros ->. reflexivity.
      * intros H2. apply Z.eqb_neq in H2. rewrite H2. reflexivity.
Qed.

(** C4 fails as stated: a 16-byte header (type 2, size 0) arrives in
    two pieces of 10 and 6 bytes.  [proto_recv_packet] returns 0 after a
    single [read], with the last 6 bytes of the header still unread. *)
Lemma short_read_not_repeated :
  let h := wire_header 2 0 0 0 0 0 in
  let fd := mkIn [ReadData (take 10 h); ReadData (drop 10 h)] 0 in
  let r := proto_recv_packet true fd (replicate 16 x00) in
  length h = 16%nat /\
  recv_status r = 0 /\
  r_calls (recv_fd r) = 1%nat /\
  r_script (recv_fd r) = [ReadData (drop 10 h)].
Proof. vm_compute. repeat split. Qed.

(** End of file in the payload is not looked for either: the peer
    sends a header that announces 3 bytes and closes; the status is 0. *)
Lemma payload_eof_accepted :
  let h := wire_header 7 0 0 3 0 0 in
  let r := proto_recv_packet true (mkIn [ReadData h] 0)
                             (replicate 16 x00) in
  recv_status r = 0 /\ r_script (recv_fd r) = [].
Proof. vm_compute. repeat split. Qed.

End ProtocolFacts.

(* ===================================================================== *)
(** * Properties of player.c *)
(* ===================================================================== *)

Section PlayerFacts.
Import Player.
Local Open Scope R_scope.













End PlayerFacts.


(* ===================================================================== *)
(** * Further properties of client.c: the invitation list *)
(* ===================================================================== *)

Section InviteListFacts.
Import Protocol Client.

Lemma find_inv_split (l : list INVITE_NODE) (inv : INVITATION_ptr) :
  l = fst (find_inv l inv) ++ snd (find_inv l inv) /\
  Forall (fun m => invitation m <> inv) (fst (find_inv l inv)) /\
  snd (find_inv l inv)
  = match get_invite_node_from_inv l inv with
    | None => []
    | Some n => n :: tail (snd (find_inv l inv))
    end /\
  (forall n, get_invite_node_from_inv l inv = Some n -> invitation n = inv).
Proof.
  induction l as [|m l IH]; simpl.
  - repeat split; auto. discriminate.
  - destruct (invitation m =? inv)%nat eqn:E; simpl.
    + apply Nat.eqb_eq in E. repeat split; auto. intros n [= <-]. exact E.
    + apply Nat.eqb_neq in E.
      destruct (find_inv l inv) as [before from]. simpl in *.
      destruct IH as (H1 & H2 & H3 & H4).
      repeat split; auto. congruence.
Qed.

(** What [client_remove_invitation] does, by the result of the scan. *)
Lemma remove_invitation_cases (c : CLIENT) (inv : INVITATION_ptr) :
  match get_invite_node_from_inv (inviteHead c) inv with
  | None => client_remove_invitation c inv = (-1, c)
  | Some n =>
      exists before after,
        inviteHead c = before ++ n :: after /\
        Forall (fun m => invitation m <> inv) before /\
        invitation n = inv /\
        client_remove_invitation c inv
        = (id n, set_list c (before ++ after) (invites c - 1))
  end.
Proof.
  unfold client_remove_invitation.
  destruct (inviteHead c) as [|temp next] eqn:El; [reflexivity|].
  simpl get_invite_node_from_inv.
  destruct (invitation temp =? inv)%nat eqn:E.
  - apply Nat.eqb_eq in E. exists [], next. repeat split; auto.
  - destruct (find_inv_split (temp :: next) inv) as (H1 & H2 & H3 & H4).
    simpl get_invite_node_from_inv in H3, H4. rewrite E in H3, H4.
    destruct (find_inv (temp :: next) inv) as [before from].
    simpl fst in *. simpl snd in *.
    destruct (get_invite_node_from_inv next inv) as [n|].
    + rewrite H3. exists before, (tail from).
      rewrite H3 in H1. repeat split; auto.
    + rewrite H3. reflexivity.
Qed.

(** X1. [client_remove_invitation] removes the node that the scan by
    invitation finds, the first one that holds the invitation, and
    returns its identifier; the nodes before and after it keep their
    order and the counter goes down by one.  When no node holds the
    invitation it returns -1 and leaves the client as it was. *)
Theorem remove_invitation_first_match (c : CLIENT) (inv : INVITATION_ptr) :
  match get_invite_node_from_inv (inviteHead c) inv with
  | None => client_remove_invitation c inv = (-1, c)
  | Some n =>
      exists before after,
        inviteHead c = before ++ n :: after /\
        Forall (fun m => invitation m <> inv) before /\
        invitation n = inv /\
        client_remove_invitation c inv
        = (id n, set_list c (before ++ after) (invites c - 1))
  end.
Proof. exact (remove_invitation_cases c inv). Qed.

Lemma lookup_inv_app_none (l : list INVITE_NODE) (n : INVITE_NODE) :
  get_invite_node_from_inv l (invitation n) = None ->
  get_invite_node_from_inv (l ++ [n]) (invitation n) = Some n.
Proof.
  induction l as [|m l IH]; simpl.
  - rewrite Nat.eqb_refl. reflexivity.
  - destruct (invitation m =? invitation n)%nat; [discriminate|]. exact IH.
Qed.

Lemma lookup_inv_none_forall (l : list INVITE_NODE) (inv : INVITATION_ptr) :
  get_invite_node_from_inv l inv = None <->
  Forall (fun m => invitation m <> inv) l.
Proof.
  induction l as [|m l IH]; simpl.
  - split; auto.
  - destruct (invitation m =? inv)%nat eqn:E.
    + apply Nat.eqb_eq in E. split; [discriminate|].
      intros H. inversion H; subst. contradiction.
    + apply Nat.eqb_neq in E. rewrite IH. split.
      * intros H. constructor; auto.
      * intros H. inversion H; auto.
Qed.

(** Removing the invitation just added gives the client back. *)
Lemma remove_after_add (c : CLIENT) (inv : INVITATION_ptr) :
  get_invite_node_from_inv (inviteHead c) inv = None ->
  client_remove_invitation (snd (client_add_invitation c inv)) inv
  = (invites c, c).
Proof.
  intros Hnone.
  pose proof (remove_invitation_cases
                (snd (client_add_invitation c inv)) inv) as H.
  unfold client_add_invitation in *. simpl in *.
  pose proof (lookup_inv_app_none (inviteHead c) (mkNODE (invites c) inv)
                Hnone) as Hs.
  simpl in Hs. rewrite Hs in H. clear Hs.
  destruct H as (before & after & Hl & Hb & _ & ->).
  apply lookup_inv_none_forall in Hnone.
  assert (Hba : before = inviteHead c /\ after = []).
  { clear - Hl Hb Hnone. revert before Hl Hb.
    induction (inviteHead c) as [|m l IH]; intros before Hl Hb.
    - destruct before as [|b before]; simpl in Hl.
      + injection Hl as <-. auto.
      + injection Hl as <- Hl. destruct before; discriminate.
    - inversion Hnone as [|? ? Hm Hrest]; subst.
      destruct before as [|b before]; simpl in Hl.
      + injection Hl as Hl _. subst m. simpl in Hm. contradiction.
      + injection Hl as <- Hl. inversion Hb; subst.
        destruct (IH Hrest before Hl) as [-> ->]; auto. }
  destruct Hba as [-> ->]. rewrite app_nil_r.
  destruct c as [f p l k n]. unfold set_list. simpl.
  f_equal. f_equal. lia.
Qed.

(** X2. Adding an invitation that the list does not hold and removing
    it again gives back the identifier that was assigned and leaves the
    client exactly as it was before the two calls. *)
Theorem add_then_remove (c : CLIENT) (inv : INVITATION_ptr) :
  get_invite_node_from_inv (inviteHead c) inv = None ->
  fst (client_add_invitation c inv) = invites c /\
  client_remove_invitation (snd (client_add_invitation c inv)) inv
  = (invites c, c).
Proof.
  intros Hnone. split; [reflexivity|]. now apply remove_after_add.
Qed.

Lemma add_then_remove_witness :
  let c := snd (client_add_invitation (client_create 4) 10%nat) in
  get_invite_node_from_inv (inviteHead c) 20%nat = None /\
  client_remove_invitation (snd (client_add_invitation c 20%nat)) 20%nat
  = (1, c).
Proof.
  split; [reflexivity|].
  apply (add_then_remove
           (snd (client_add_invitation (client_create 4) 10%nat)) 20%nat).
  reflexivity.
Defined.

Lemma run_ops_counter (ops : list list_op) :
  forall c, invites c = Z.of_nat (length (inviteHead c)) ->
    invites (snd (run_ops c ops))
    = Z.of_nat (length (inviteHead (snd (run_ops c ops)))).
Proof.
  induction ops as [|[inv|inv] ops IH]; intros c Hc; simpl.
  - exact Hc.
  - destruct (run_ops _ ops) as [ids c2] eqn:E. simpl.
    replace c2 with (snd (run_ops
      (set_list c (inviteHead c ++ [mkNODE (invites c) inv])
                (invites c + 1)) ops)) by (rewrite E; reflexivity).
    apply IH. simpl. rewrite length_app. simpl. lia.
  - apply IH.
    pose proof (remove_invitation_cases c inv) as H.
    destruct (get_invite_node_from_inv (inviteHead c) inv) as [n|].
    + destruct H as (before & after & Hl & _ & _ & ->). simpl.
      rewrite Hl in Hc. rewrite length_app in *. simpl in Hc. lia.
    + rewrite H. exact Hc.
Qed.

(** X3. Through any sequence of [client_add_invitation] and
    [client_remove_invitation] calls on a new client, [invites] is the
    number of nodes in the list (so the identifier given to the next
    invitation is the current length of the list). *)
Theorem invites_is_list_length (fd : Z) (ops : list list_op) :
  let c := snd (run_ops (client_create fd) ops) in
  invites c = Z.of_nat (length (inviteHead c)).
Proof. cbv zeta. apply run_ops_counter. reflexivity. Qed.

Lemma run_adds (invs : list INVITATION_ptr) :
  forall c,
    run_ops c (map Add invs)
    = (map (fun k => invites c + Z.of_nat k) (seq 0 (length invs)),
       set_list c
         (inviteHead c
          ++ zip_with mkNODE
               (map (fun k => invites c + Z.of_nat k) (seq 0 (length invs)))
               invs)
         (invites c + Z.of_nat (length invs))).
Proof.
  induction invs as [|inv invs IH]; intros c; simpl.
  - destruct c. unfold set_list. simpl. rewrite app_nil_r.
    f_equal. f_equal. lia.
  - rewrite IH. simpl. unfold set_list. simpl.
    rewrite <- seq_shift, map_map.
    f_equal.
    + f_equal; [f_equal; lia|]. apply map_ext. intros k. lia.
    + f_equal; [|lia]. rewrite <- app_assoc. simpl. f_equal. f_equal.
      * f_equal. lia.
      * f_equal. apply map_ext. intros k. lia.
Qed.


(** X4. While invitations are only added to a new client, the
    identifiers handed out are 0, 1, 2, ... in order, and looking up the
    [k]-th identifier finds the [k]-th invitation added. *)
Theorem ids_sequential_without_removal (fd : Z)
    (invs : list INVITATION_ptr) :
  let r := run_ops (client_create fd) (map Add invs) in
  fst r = map Z.of_nat (seq 0 (length invs)) /\
  map invitation (inviteHead (snd r)) = invs /\
  (forall (k : nat) inv, invs !! k = Some inv ->
     get_invite_node_from_id (inviteHead (snd r)) (Z.of_nat k)
     = Some (mkNODE (Z.of_nat k) inv)).
Proof.
  cbv zeta. rewrite run_adds. simpl.
  assert (Hm : map (fun k : nat => 0 + Z.of_nat k) (seq 0 (length invs))
               = map Z.of_nat (seq 0 (length invs)))
    by (apply map_ext; intros; lia).
  rewrite Hm. clear Hm. split; [reflexivity|].
  assert (Hgen : forall (s : nat),
    map invitation (zip_with mkNODE (map Z.of_nat (seq s (length invs))) invs)
    = invs /\
    (forall (k : nat) inv, invs !! k = Some inv ->
       get_invite_node_from_id
         (zip_with mkNODE (map Z.of_nat (seq s (length invs))) invs)
         (Z.of_nat (s + k))
       = Some (mkNODE (Z.of_nat (s + k)) inv))).
  { induction invs as [|inv0 invs IH]; intros s; simpl.
    - split; [reflexivity|]. intros k inv H. discriminate.
    - destruct (IH (S s)) as [IH1 IH2]. split; [rewrite IH1; reflexivity|].
      intros [|k] inv H; simpl in H.
      + injection H as ->. rewrite Nat.add_0_r, Z.eqb_refl. reflexivity.
      + assert (Hne : (Z.of_nat s =? Z.of_nat (s + S k)) = false)
          by (apply Z.eqb_neq; lia).
        rewrite Hne. replace (s + S k)%nat with (S s + k)%nat by lia.
        apply IH2. exact H. }
  destruct (Hgen 0%nat) as [H1 H2]. split; [exact H1|].
  intros k inv H. exact (H2 k inv H).
Qed.

End InviteListFacts.

(* ===================================================================== *)
(** * Further properties of game.c *)
(* ===================================================================== *)

Section GameMoreFacts.
Import CString Game.

Lemma piece_char_not_nul (p : Z) : Ascii.eqb (piece_char p) NUL = false.
Proof.
  unfold piece_char. destruct (p =? -1); [reflexivity|].
  destruct (p =? 1); reflexivity.
Qed.

(** The characters [game_unparse_state] writes. *)
Lemma unparse_state_chars (g : GAME) :
  let pc k := piece_char (cell g k) in
  let bar := "|"%char in
  let dash := "-"%char in
  c_chars (game_unparse_state g)
  = [pc 0%nat; bar; pc 1%nat; bar; pc 2%nat; newline;
     dash; dash; dash; dash; dash; newline;
     pc 3%nat; bar; pc 4%nat; bar; pc 5%nat; newline;
     dash; dash; dash; dash; dash; newline;
     pc 6%nat; bar; pc 7%nat; bar; pc 8%nat] /\
  strlen (game_unparse_state g) = 29%nat.
Proof.
  cbv zeta.
  assert (H : c_chars (game_unparse_state g)
    = [piece_char (cell g 0); "|"%char; piece_char (cell g 1); "|"%char;
       piece_char (cell g 2); newline;
       "-"%char; "-"%char; "-"%char; "-"%char; "-"%char; newline;
       piece_char (cell g 3); "|"%char; piece_char (cell g 4); "|"%char;
       piece_char (cell g 5); newline;
       "-"%char; "-"%char; "-"%char; "-"%char; "-"%char; newline;
       piece_char (cell g 6); "|"%char; piece_char (cell g 7); "|"%char;
       piece_char (cell g 8)]).
  { unfold game_unparse_state. simpl.
    rewrite !piece_char_not_nul. reflexivity. }
  split; [exact H|]. unfold strlen. rewrite H. reflexivity.
Qed.

(** X5. For every game, [game_unparse_state] returns 29 characters:
    three rows of cells separated by [|], with a line of five dashes
    between the rows, the cells in board order, an empty cell shown as a
    space, 1 as X and anything else as O; there is no newline after the
    last row. *)
Theorem unparse_state_layout (g : GAME) :
  let pc k := piece_char (cell g k) in
  let bar := "|"%char in
  let dash := "-"%char in
  c_chars (game_unparse_state g)
  = [pc 0%nat; bar; pc 1%nat; bar; pc 2%nat; newline;
     dash; dash; dash; dash; dash; newline;
     pc 3%nat; bar; pc 4%nat; bar; pc 5%nat; newline;
     dash; dash; dash; dash; dash; newline;
     pc 6%nat; bar; pc 7%nat; bar; pc 8%nat] /\
  strlen (game_unparse_state g) = 29%nat.
Proof. exact (unparse_state_chars g). Qed.

Lemma piece_char_inj (p q : Z) :
  (p = -1 \/ p = 0 \/ p = 1) -> (q = -1 \/ q = 0 \/ q = 1) ->
  piece_char p = piece_char q -> p = q.
Proof.
  intros [-> | [-> | ->]] [-> | [-> | ->]]; simpl; intros H;
    try reflexivity; discriminate H.
Qed.

(** X6. On boards of nine cells that are empty, X or O, the text of
    [game_unparse_state] determines the board: two games shown by the
    same text have the same cells. *)
Theorem unparse_state_injective (g g' : GAME) :
  board_ok g -> board_ok g' ->
  game_unparse_state g = game_unparse_state g' ->
  game_board g = game_board g'.
Proof.
  intros [Hl Hc] [Hl' Hc'] Heq.
  pose proof (proj1 (unparse_state_chars g)) as H.
  pose proof (proj1 (unparse_state_chars g')) as H'.
  cbv zeta in H, H'. rewrite Heq, H' in H. clear Heq H'.
  unfold cell in H.
  destruct (game_board g) as [|a0 [|a1 [|a2 [|a3 [|a4 [|a5 [|a6 [|a7 [|a8
    [|? ?]]]]]]]]]]; try discriminate Hl.
  destruct (game_board g') as [|b0 [|b1 [|b2 [|b3 [|b4 [|b5 [|b6 [|b7 [|b8
    [|? ?]]]]]]]]]]; try discriminate Hl'.
  simpl in H.
  repeat match goal with
         | Hf : Forall _ (_ :: _) |- _ =>
             let Hh := fresh "Hh" in
             let Ht := fresh "Ht" in
             apply Forall_cons in Hf as [Hh Ht]
         end.
  injection H as E0 E1 E2 E3 E4 E5 E6 E7 E8.
  repeat match goal with
         | E : piece_char ?p = piece_char ?q |- _ =>
             apply piece_char_inj in E; [subst q | assumption | assumption]
         end.
  reflexivity.
Qed.

Lemma create_board_ok : board_ok game_create.
Proof. split; [reflexivity|]. repeat constructor. Qed.

Lemma scenario_board_ok : board_ok scenario_game.
Proof.
  split; [vm_compute; reflexivity|]. vm_compute.
  repeat (constructor; [lia|]). constructor.
Qed.

Lemma scenario_ref_board_ok : board_ok (game_ref scenario_game).
Proof.
  split; [vm_compute; reflexivity|]. vm_compute.
  repeat (constructor; [lia|]). constructor.
Qed.

Lemma scenario_ref_same_text :
  game_unparse_state scenario_game
  = game_unparse_state (game_ref scenario_game).
Proof. vm_compute. reflexivity. Qed.

Lemma unparse_state_injective_witness :
  board_ok scenario_game /\ board_ok (game_ref scenario_game) /\
  game_unparse_state scenario_game
  = game_unparse_state (game_ref scenario_game) /\
  game_board scenario_game = game_board (game_ref scenario_game).
Proof.
  split; [exact scenario_board_ok|].
  split; [exact scenario_ref_board_ok|].
  split; [exact scenario_ref_same_text|].
  exact (unparse_state_injective scenario_game (game_ref scenario_game)
           scenario_board_ok scenario_ref_board_ok scenario_ref_same_text).
Defined.

(** The two ways [detect_end] comes out: on the first complete line in
    the order the code tests them, or, with no complete line, on the test
    for a full board. *)
Lemma detect_end_cases (g1 : GAME) :
  (exists a b c, In (a, b, c) winning_lines /\
     line_full g1 a b c = true /\
     detect_end g1 = set_over g1 (line_winner g1 a)) \/
  (three_in_a_row g1 = false /\
   detect_end g1
   = if isOver g1 =? 0
     then if cleared g1 then set_over g1 NULL_ROLE else g1
     else g1).
Proof.
  rewrite three_in_a_row_lines. unfold detect_end. cbv zeta.
  assert (Hin : forall t, In t winning_lines <->
    t = (0, 1, 2)%nat \/ t = (3, 4, 5)%nat \/ t = (6, 7, 8)%nat \/
    t = (0, 3, 6)%nat \/ t = (1, 4, 7)%nat \/ t = (2, 5, 8)%nat \/
    t = (0, 4, 8)%nat \/ t = (2, 4, 6)%nat).
  { intros t. unfold winning_lines. simpl. intuition congruence. }
  destruct (line_full g1 0 4 8) eqn:D1.
  { left. exists 0%nat, 4%nat, 8%nat. split; [apply Hin; tauto|]. auto. }
  destruct (line_full g1 2 4 6) eqn:D2.
  { left. exists 2%nat, 4%nat, 6%nat. split; [apply Hin; tauto|]. auto. }
  simpl rows_cols_loop.
  destruct (line_full g1 0 1 2) eqn:R1; simpl.
  { left. exists 0%nat, 1%nat, 2%nat. split; [apply Hin; tauto|]. auto. }
  destruct (line_full g1 0 3 6) eqn:C1; simpl.
  { left. exists 0%nat, 3%nat, 6%nat. split; [apply Hin; tauto|]. auto. }
  destruct (line_full g1 3 4 5) eqn:R2; simpl.
  { left. exists 3%nat, 4%nat, 5%nat. split; [apply Hin; tauto|]. auto. }
  destruct (line_full g1 1 4 7) eqn:C2; simpl.
  { left. exists 1%nat, 4%nat, 7%nat. split; [apply Hin; tauto|]. auto. }
  destruct (line_full g1 6 7 8) eqn:R3; simpl.
  { left. exists 6%nat, 7%nat, 8%nat. split; [apply Hin; tauto|]. auto. }
  destruct (line_full g1 2 5 8) eqn:C3; simpl.
  { left. exists 2%nat, 5%nat, 8%nat. split; [apply Hin; tauto|]. auto. }
  right. split; reflexivity.
Qed.

Lemma line_full_in_three (g : GAME) (a b c : nat) :
  In (a, b, c) winning_lines -> line_full g a b c = true ->
  three_in_a_row g = true.
Proof.
  intros Hin Hl. unfold three_in_a_row. apply existsb_exists.
  exists (a, b, c). split; [exact Hin | exact Hl].
Qed.

Lemma winning_line_bound (a b c : nat) :
  In (a, b, c) winning_lines -> (a < 9 /\ b < 9 /\ c < 9)%nat.
Proof.
  unfold winning_lines. simpl.
  intros H. repeat (destruct H as [[= <- <- <-] | H]; [lia|]).
  contradiction.
Qed.

(** X7. A move into a cell of the board is refused, with -1 and the
    game unchanged, exactly when the game is over, the cell is taken or
    the piece is not the one expected; otherwise it is accepted with 0,
    the cell gets the piece, every other cell keeps its value and the
    other piece becomes the one expected. *)
Theorem apply_move_effect (g : GAME) (m : GAME_MOVE) :
  length (game_board g) = 9%nat ->
  1 <= placement m <= 9 ->
  let k := Z.to_nat (placement m - 1) in
  (isOver g <> 0 \/ cell g k <> -1 \/ expectedPiece g <> piece m ->
   game_apply_move g m = Some (-1, g)) /\
  (isOver g = 0 -> cell g k = -1 -> expectedPiece g = piece m ->
   exists g', game_apply_move g m = Some (0, g') /\
     cell g' k = piece m /\
     (forall j, j <> k -> cell g' j = cell g j) /\
     expectedPiece g' = 1 - expectedPiece g).
Proof.
  intros Hlen Hpl. cbv zeta. unfold game_apply_move.
  replace ((placement m - 1 <? 0) || (9 <=? placement m - 1)) with false
    by (symmetry; apply orb_false_intro;
        [apply Z.ltb_ge | apply Z.leb_gt]; lia).
  split.
  - intros H. destruct (isOver g =? 0) eqn:Ov; [|reflexivity]. simpl.
    apply Z.eqb_eq in Ov.
    destruct (cell g (Z.to_nat (placement m - 1)) =? -1) eqn:Ce;
      [|reflexivity].
    destruct (expectedPiece g =? piece m) eqn:Ep; [|reflexivity].
    apply Z.eqb_eq in Ce, Ep. tauto.
  - intros Ov Ce Ep.
    apply Z.eqb_eq in Ov, Ce, Ep. rewrite Ov, Ce, Ep. simpl.
    eexists. split; [reflexivity|].
    match goal with
    | |- context [detect_end ?x] =>
        destruct (detect_end_spec x) as (Hb & He & _)
    end.
    unfold cell. rewrite Hb, He. simpl.
    split; [|split; [|reflexivity]].
    + apply list_lookup_total_insert_eq. lia.
    + intros j Hj. apply list_lookup_total_insert_ne. auto.
Qed.

Lemma apply_move_effect_witness :
  length (game_board game_create) = 9%nat /\
  1 <= placement (mkMOVE 1 5) <= 9 /\
  exists g', game_apply_move game_create (mkMOVE 1 5) = Some (0, g') /\
             cell g' 4 = 1.
Proof.
  split; [reflexivity|]. split; [simpl; lia|].
  destruct (apply_move_effect game_create (mkMOVE 1 5) eq_refl)
    as [_ H]; [simpl; lia|].
  destruct H as (g' & H1 & H2 & _); try reflexivity.
  exists g'. split; [exact H1 | exact H2].
Defined.

Lemma cleared_board (g g' : GAME) :
  game_board g' = game_board g -> cleared g' = cleared g.
Proof. intros H. unfold cleared, cell. rewrite H. reflexivity. Qed.

(** Per move: the game is over afterwards exactly when a line is
    complete or the board is full. *)
Lemma detect_end_over (g1 : GAME) :
  isOver g1 = 0 ->
  (isOver (detect_end g1) = 0 \/ isOver (detect_end g1) = 1) /\
  (isOver (detect_end g1) <> 0 <->
   three_in_a_row g1 = true \/ cleared g1 = true).
Proof.
  intros Ov. destruct (detect_end_cases g1)
    as [(a & b & c & Hin & Hl & ->) | [Hno ->]].
  - simpl. split; [auto|]. split; [|discriminate].
    intros _. left. exact (line_full_in_three g1 a b c Hin Hl).
  - rewrite Ov. simpl. destruct (cleared g1) eqn:Cl; simpl.
    + split; [auto|]. split; [auto | discriminate].
    + rewrite Ov. split; [auto|]. split; [contradiction|].
      intros [H | H]; congruence.
Qed.

(** A line that is complete after a store into cell [k] and was not
    before holds the piece stored. *)
Lemma new_line_holds_piece (g g1 : GAME) (k : nat) (p : Z) (a b c : nat) :
  length (game_board g) = 9%nat -> (k < 9)%nat ->
  game_board g1 = <[k := p]> (game_board g) ->
  line_full g a b c = false -> line_full g1 a b c = true ->
  cell g1 a = p /\ cell g1 b = p /\ cell g1 c = p.
Proof.
  intros Hlen Hk Hb Hold Hnew. unfold line_full, cell in *. rewrite Hb in *.
  assert (Hat : forall j, <[k := p]> (game_board g) !!! j
                          = if decide (k = j) then p else game_board g !!! j).
  { intros j. destruct (decide (k = j)) as [<- | Hne].
    - apply list_lookup_total_insert_eq. lia.
    - apply list_lookup_total_insert_ne. exact Hne. }
  rewrite !Hat in *.
  apply andb_prop in Hnew as [Hnew H3]. apply andb_prop in Hnew as [H1 H2].
  apply Z.eqb_eq in H2, H3.
  destruct (decide (k = a)), (decide (k = b)), (decide (k = c));
    try (repeat split; congruence).
  exfalso. rewrite H1 in Hold. simpl in Hold.
  rewrite H2, H3, !Z.eqb_refl in Hold. discriminate.
Qed.

Lemma end_inv_move (g g' : GAME) (m : GAME_MOVE) :
  game_inv g -> end_inv g ->
  game_apply_move g m = Some (0, g') -> end_inv g'.
Proof.
  intros (Hlen & Hexp & _ & Hrun & Hwin) (_ & Hov & _ & _) Hmove.
  destruct (apply_move_accepted g g' m Hmove)
    as (k & Ov & Hk & _ & Hcell & Hpc & ->).
  remember (mkGAME (<[k := piece m]> (game_board g)) (isOver g)
                   (winner g) (count g) (1 - expectedPiece g))
    as g1 eqn:Eg1.
  assert (Hb1 : game_board g1 = <[k := piece m]> (game_board g))
    by (subst g1; reflexivity).
  assert (He1 : expectedPiece g1 = 1 - expectedPiece g)
    by (subst g1; reflexivity).
  assert (Ho1 : isOver g1 = 0) by (subst g1; exact Ov).
  assert (Hw1 : winner g1 = NULL_ROLE) by (subst g1; exact (Hrun Ov)).
  clear Eg1 Hmove.
  assert (Hnoline : three_in_a_row g = false).
  { destruct (three_in_a_row g) eqn:T; [|reflexivity].
    exfalso. apply Hov; auto. }
  destruct (detect_end_spec g1) as (Hb & He & _).
  destruct (detect_end_over g1 Ho1) as [H01 Hiff].
  unfold end_inv. rewrite (three_in_a_row_board g1 (detect_end g1) Hb).
  rewrite (cleared_board g1 (detect_end g1) Hb).
  split; [exact H01|]. split; [exact Hiff|].
  assert (Hline : forall w, winner (detect_end g1) = w -> w <> NULL_ROLE ->
            line_of (detect_end g1) (piece m) /\
            w = if piece m =? 1 then FIRST_PLAYER_ROLE
                else SECOND_PLAYER_ROLE).
  { intros w Hw Hne.
    destruct (detect_end_cases g1)
      as [(a & b & c & Hin & Hl & E) | [Hno E]].
    - assert (Hold : line_full g a b c = false).
      { destruct (line_full g a b c) eqn:L; [|reflexivity].
        rewrite (line_full_in_three g a b c Hin L) in Hnoline.
        discriminate. }
      destruct (new_line_holds_piece g g1 k (piece m) a b c
                  Hlen Hk Hb1 Hold Hl) as (Ha & Hbb & Hc).
      split.
      + exists a, b, c. unfold cell in *. rewrite Hb. auto.
      + rewrite E in Hw. simpl in Hw. unfold line_winner in Hw.
        rewrite Ha in Hw. congruence.
    - exfalso. apply Hne. rewrite <- Hw, E, Ho1.
      destruct (cleared g1); simpl; [reflexivity | exact Hw1]. }
  rewrite He, He1. split.
  - intros Hw. destruct (Hline _ Hw) as [Hl Hp]; [discriminate|].
    destruct (piece m =? 1) eqn:P; [|discriminate].
    apply Z.eqb_eq in P. rewrite P in Hl. split; [exact Hl | lia].
  - intros Hw. destruct (Hline _ Hw) as [Hl Hp]; [discriminate|].
    destruct (piece m =? 1) eqn:P; [discriminate|].
    apply Z.eqb_neq in P.
    assert (P0 : piece m = 0) by lia.
    rewrite P0 in Hl. split; [exact Hl | lia].
Qed.

Lemma end_inv_create : end_inv game_create.
Proof.
  unfold end_inv. simpl. split; [auto|]. split.
  - split; [intros H; contradiction | intros [H | H]; discriminate].
  - split; discriminate.
Qed.

Lemma reachable_by_moves_end_inv (g : GAME) :
  reachable_by_moves g -> end_inv g.
Proof.
  induction 1 as [|g m g' Hr IH Hm]; [apply end_inv_create|].
  exact (end_inv_move g g' m (reachable_by_moves_inv g Hr) IH Hm).
Qed.

(** X8. In every state reached from [game_create] by accepted moves,
    the game is over exactly when a winning line is complete or all nine
    cells are taken, and it is over without a winner (a draw) exactly when
    the board is full with no complete line. *)
Theorem over_iff_line_or_full (g : GAME) :
  reachable_by_moves g ->
  (isOver g <> 0 <-> three_in_a_row g = true \/ cleared g = true) /\
  (isOver g <> 0 /\ winner g = NULL_ROLE <->
   three_in_a_row g = false /\ cleared g = true).
Proof.
  intros Hr.
  destruct (reachable_by_moves_end_inv g Hr) as (_ & Hov & _).
  destruct (reachable_by_moves_inv g Hr) as (_ & _ & _ & _ & Hwin).
  split; [exact Hov|]. split.
  - intros [Ho Hw]. destruct (three_in_a_row g) eqn:T.
    + exfalso. apply Hwin; auto.
    + split; [reflexivity|]. apply Hov in Ho as [H | H];
        [discriminate | exact H].
  - intros [T Cl]. split; [apply Hov; auto|].
    destruct (winner g) eqn:W; [reflexivity | |];
      (assert (Hf : three_in_a_row g = true)
         by (apply Hwin; discriminate);
       congruence).
Qed.

Lemma over_iff_line_or_full_witness :
  reachable_by_moves scenario_game /\
  isOver scenario_game <> 0 /\ three_in_a_row scenario_game = true.
Proof.
  split; [exact scenario_by_moves|].
  split; [vm_compute; discriminate|].
  destruct (over_iff_line_or_full scenario_game scenario_by_moves)
    as [[H _] _].
  destruct H as [H | H]; [vm_compute; discriminate | exact H |].
  vm_compute in H. discriminate H.
Defined.

(** X9. In every state reached from [game_create] by accepted moves, a
    winner holds a complete line of its own piece (X for the first
    player, O for the second) and is the side that made the last move:
    the piece expected next is the other one. *)
Theorem winner_made_last_move (g : GAME) :
  reachable_by_moves g ->
  (winner g = FIRST_PLAYER_ROLE -> line_of g 1 /\ expectedPiece g = 0) /\
  (winner g = SECOND_PLAYER_ROLE -> line_of g 0 /\ expectedPiece g = 1).
Proof.
  intros Hr. destruct (reachable_by_moves_end_inv g Hr) as (_ & _ & H).
  exact H.
Qed.

Lemma winner_made_last_move_witness :
  reachable_by_moves scenario_game /\
  winner scenario_game = FIRST_PLAYER_ROLE /\
  expectedPiece scenario_game = 0.
Proof.
  split; [exact scenario_by_moves|].
  assert (Hw : winner scenario_game = FIRST_PLAYER_ROLE)
    by (vm_compute; reflexivity).
  split; [exact Hw|].
  destruct (winner_made_last_move scenario_game scenario_by_moves)
    as [H _].
  exact (proj2 (H Hw)).
Defined.

End GameMoreFacts.

(* ===================================================================== *)
(** * Further properties of invitation.c *)
(* ===================================================================== *)

Section InvitationMoreFacts.
Import Game Invitation.

Lemma apply_move_status (g g' : GAME) (m : GAME_MOVE) (rc : Z) :
  game_apply_move g m = Some (rc, g') -> rc = 0 \/ (rc = -1 /\ g' = g).
Proof.
  unfold game_apply_move.
  destruct (negb (isOver g =? 0)); [intros [= <- <-]; auto|].
  destruct ((placement m - 1 <? 0) || (9 <=? placement m - 1));
    [discriminate|].
  destruct (negb (cell g (Z.to_nat (placement m - 1)) =? -1)
            || negb (expectedPiece g =? piece m));
    intros [= <- <-]; auto.
Qed.

Lemma resign_reachable (g : GAME) (role : GAME_ROLE) :
  Game.reachable g ->
  Game.reachable (snd (game_resign g role)) /\
  (isOver g = 0 -> isOver (snd (game_resign g role)) <> 0).
Proof.
  intros Hg. destruct (game_resign g role) as [rc g'] eqn:E. simpl.
  assert (Hrc : rc = 0 /\ isOver g = 0 /\ isOver g' <> 0
                \/ isOver g <> 0 /\ g' = g).
  { unfold game_resign in E. destruct (isOver g =? 0) eqn:Ov; simpl in E.
    - apply Z.eqb_eq in Ov. left.
      destruct role; injection E as <- <-; simpl; repeat split; auto;
        discriminate.
    - apply Z.eqb_neq in Ov. right. injection E as _ <-. auto. }
  destruct Hrc as [(-> & Ov & Ho) | [Ov ->]].
  - split; [|auto]. apply (reach_op g (OpResign role)); [exact Hg|].
    simpl. rewrite E. reflexivity.
  - split; [exact Hg | intros; contradiction].
Qed.

Lemma resign_over_after (g : GAME) (role : GAME_ROLE) :
  isOver g = 0 -> isOver (snd (game_resign g role)) <> 0.
Proof.
  intros Ov. unfold game_resign. rewrite Ov. simpl.
  destruct role; simpl; discriminate.
Qed.

(** X10. On every invitation the server can build, the game it holds,
    if any, is a game reachable from [game_create] by accepted moves and
    resignations; an open invitation holds no game; and a closed
    invitation never holds a game still in progress. *)
Theorem invitation_game_invariant (inv : INVITATION) :
  Invitation.reachable inv ->
  (forall g, game inv = Some g -> Game.reachable g) /\
  (state inv = INV_OPEN_STATE -> game inv = None) /\
  (state inv = INV_CLOSED_STATE ->
   forall g, game inv = Some g -> isOver g <> 0).
Proof.
  intros Hr. split; [|split].
  - induction Hr as [s t sr tr inv Hc | inv _ IH | inv role _ IH
                    | inv g0 m rc g' _ IH Hg Hm | inv _ IH].
    + unfold inv_create in Hc. destruct (s =? t)%nat; [discriminate|].
      injection Hc as <-. intros g; discriminate.
    + destruct inv as [s sr t tr st g0 c]. unfold inv_accept. simpl in *.
      destruct st; simpl; auto. intros g [= <-]. constructor.
    + destruct inv as [s sr t tr st g0 c]. unfold inv_close. simpl in *.
      destruct st; simpl; auto;
        (destruct g0 as [g0|]; simpl; [|intros g; discriminate];
         destruct (negb (game_is_over g0 =? 0)); simpl; auto;
         destruct role; simpl; auto;
         intros g [= <-]; apply resign_reachable; auto).
    + simpl. intros g [= <-].
      destruct (apply_move_status g0 g' m rc Hm) as [-> | [_ ->]]; auto.
      apply (reach_op g0 (OpMove m)); auto.
    + exact IH.
  - apply (reachable_game_present inv Hr).
  - induction Hr as [s t sr tr inv Hc | inv Hr IH | inv role Hr IH
                    | inv g0 m rc g' Hr IH Hg Hm | inv _ IH].
    + unfold inv_create in Hc. destruct (s =? t)%nat; [discriminate|].
      injection Hc as <-. intros Hs; discriminate Hs.
    + destruct inv as [s sr t tr st g0 c]. unfold inv_accept. simpl in *.
      destruct st; simpl; auto; intros Hs; discriminate Hs.
    + destruct inv as [s sr t tr st g0 c]. unfold inv_close. simpl in *.
      destruct st; simpl; auto;
        (destruct g0 as [g0|]; simpl; [|intros _ g; discriminate];
         unfold game_is_over;
         destruct (isOver g0 =? 0) eqn:Ov; simpl;
         [apply Z.eqb_eq in Ov;
          destruct role; simpl; try (intros Hs; discriminate Hs);
          intros _ g [= <-]; apply resign_over_after; exact Ov
         |apply Z.eqb_neq in Ov; intros _ g [= <-]; exact Ov]).
    + simpl. intros Hs g [= <-].
      destruct (apply_move_status g0 g' m rc Hm) as [-> | [_ ->]].
      * specialize (IH Hs g0 Hg).
        rewrite (apply_move_over g0 m IH) in Hm. discriminate.
      * exact (IH Hs g0 Hg).
    + exact IH.
Qed.

Lemma invitation_game_invariant_witness :
  let inv :=
    snd (inv_close
           (snd (inv_accept
                   (mkINV 1%nat FIRST_PLAYER_ROLE 2%nat SECOND_PLAYER_ROLE
                          INV_OPEN_STATE None 1)))
           FIRST_PLAYER_ROLE) in
  Invitation.reachable inv /\
  state inv = INV_CLOSED_STATE /\
  (forall g, game inv = Some g -> isOver g <> 0).
Proof.
  assert (Hr : Invitation.reachable
    (snd (inv_close
            (snd (inv_accept
                    (mkINV 1%nat FIRST_PLAYER_ROLE 2%nat SECOND_PLAYER_ROLE
                           INV_OPEN_STATE None 1)))
            FIRST_PLAYER_ROLE))).
  { apply reach_close. apply reach_accept.
    apply (reach_create 1%nat 2%nat FIRST_PLAYER_ROLE SECOND_PLAYER_ROLE).
    reflexivity. }
  split; [exact Hr|]. split; [reflexivity|].
  destruct (invitation_game_invariant _ Hr) as (_ & _ & H).
  apply H. reflexivity.
Defined.

End InvitationMoreFacts.

(* ===================================================================== *)
(** * Further properties of player.c *)
(* ===================================================================== *)

Section PlayerMoreFacts.
Import Player.
Local Open Scope R_scope.










End PlayerMoreFacts.

(* ===================================================================== *)
(** * Properties of server.c *)
(* ===================================================================== *)

Section ServerFacts.
Import Server.

Lemma get_int_len_loop_spec (fuel : nat) :
  forall l v, Z.abs v < 10 ^ Z.of_nat fuel ->
    exists d, get_int_len_loop fuel l v = l + d /\ 0 <= d /\
      (v = 0 -> d = 0) /\
      (v <> 0 -> 10 ^ (d - 1) <= Z.abs v < 10 ^ d).
Proof.
  induction fuel as [|fuel IH]; intros l v Hv.
  - simpl in *. exists 0. repeat split; lia.
  - simpl get_int_len_loop. destruct (v =? 0) eqn:E.
    + apply Z.eqb_eq in E. exists 0. repeat split; lia.
    + apply Z.eqb_neq in E.
      assert (Hq : Z.abs (Z.quot v 10) = Z.abs v / 10).
      { rewrite <- Z.quot_abs by lia. simpl (Z.abs 10).
        apply Z.quot_div_nonneg; lia. }
      assert (Hpow : 10 ^ Z.of_nat (S fuel) = 10 * 10 ^ Z.of_nat fuel).
      { rewrite Nat2Z.inj_succ, Z.pow_succ_r by lia. reflexivity. }
      assert (Hlt : Z.abs (Z.quot v 10) < 10 ^ Z.of_nat fuel).
      { rewrite Hq. apply Z.div_lt_upper_bound; lia. }
      destruct (IH (l + 1) (Z.quot v 10) Hlt) as (d & Hd & Hd0 & Hz & Hnz).
      exists (d + 1). split; [lia|]. split; [lia|]. split; [lia|].
      intros _. replace (d + 1 - 1) with d by lia.
      pose proof (Z.div_mod (Z.abs v) 10 ltac:(lia)) as Hdm.
      pose proof (Z.mod_pos_bound (Z.abs v) 10 ltac:(lia)) as Hmod.
      destruct (Z.eq_dec (Z.quot v 10) 0) as [Hz0 | Hz0].
      * rewrite (Hz Hz0). rewrite Hz0 in Hq. simpl in Hq. simpl. lia.
      * destruct (Hnz Hz0) as [Hlo Hhi]. rewrite Hq in Hlo, Hhi.
        assert (Hd1 : 1 <= d).
        { destruct (Z.eq_dec d 0) as [-> | Hne]; [|lia].
          simpl in Hhi. assert (Z.abs (Z.quot v 10) = 0) by lia. lia. }
        assert (Hp1 : 10 ^ d = 10 * 10 ^ (d - 1)).
        { rewrite <- Z.pow_succ_r by lia. f_equal. lia. }
        assert (Hp2 : 10 ^ (d + 1) = 10 * 10 ^ d).
        { rewrite <- Z.pow_succ_r by lia. reflexivity. }
        rewrite Hp2. rewrite Hp1 in *. lia.
Qed.

(** X14. For a value in the range of [int], [get_int_len] is the
    number of decimal digits of its absolute value: 1 for zero, and
    otherwise the [len] with 10^(len-1) <= |value| < 10^len (the sign of a
    negative value is not counted). *)
Theorem get_int_len_digits (value : Z) :
  - 2 ^ 31 <= value < 2 ^ 31 ->
  (value = 0 -> get_int_len value = 1) /\
  (value <> 0 ->
   10 ^ (get_int_len value - 1) <= Z.abs value
                                 < 10 ^ get_int_len value) /\
  1 <= get_int_len value <= 10.
Proof.
  intros Hr. unfold get_int_len.
  assert (Hv : Z.abs value < 10 ^ Z.of_nat 32) by (simpl; lia).
  destruct (value =? 0) eqn:E.
  - apply Z.eqb_eq in E. subst value. simpl. repeat split; lia.
  - apply Z.eqb_neq in E.
    destruct (get_int_len_loop_spec 32 0 value Hv) as (d & -> & Hd & _ & Hnz).
    simpl (0 + d). destruct (Hnz E) as [Hlo Hhi].
    split; [lia|]. split; [auto|].
    assert (d <> 0) by (intros ->; simpl in Hhi; lia).
    split; [lia|].
    destruct (Z_le_gt_dec d 10) as [Hle | Hgt]; [exact Hle|]. exfalso.
    assert (10 ^ 10 <= 10 ^ (d - 1)) by (apply Z.pow_le_mono_r; lia).
    simpl in *. lia.
Qed.

Lemma get_int_len_digits_witness :
  - 2 ^ 31 <= -1516 < 2 ^ 31 /\
  10 ^ (get_int_len (-1516) - 1) <= 1516 < 10 ^ get_int_len (-1516).
Proof.
  split; [lia|].
  destruct (get_int_len_digits (-1516) ltac:(lia)) as (_ & H & _).
  apply H. discriminate.
Defined.

End ServerFacts.

(* ===================================================================== *)
(** * Further properties of protocol.c: the bytes on the wire *)
(* ===================================================================== *)

Section WireFacts.
Import Protocol Client.

Lemma Z_to_byte_to_Z (b : byte) : Z_to_byte (byte_to_Z b) = b.
Proof.
  unfold Z_to_byte. pose proof (byte_to_Z_range b) as Hr.
  rewrite Z.mod_small by lia. unfold byte_to_Z.
  rewrite N2Z.id, Byte.of_to_N. reflexivity.
Qed.

Lemma Z_to_byte_mod (x y : Z) :
  x mod 256 = y mod 256 -> Z_to_byte x = Z_to_byte y.
Proof. unfold Z_to_byte. intros ->. reflexivity. Qed.

Lemma length_le_encode (w : nat) (v : Z) : length (le_encode w v) = w.
Proof. revert v. induction w as [|w IH]; intros v; simpl; auto. Qed.

Lemma le_encode_decode (bs : list byte) :
  le_encode (length bs) (le_decode bs) = bs.
Proof.
  induction bs as [|b bs IH]; simpl; [reflexivity|].
  pose proof (byte_to_Z_range b) as Hr. f_equal.
  - rewrite <- (Z_to_byte_to_Z b) at 2. apply Z_to_byte_mod.
    generalize (le_decode bs). intros D.
    rewrite (Z.mul_comm 256 D). apply Z.mod_add. lia.
  - assert (Hd : (byte_to_Z b + 256 * le_decode bs) / 256 = le_decode bs).
    { rewrite (Z.mul_comm 256), Z.div_add by lia.
      rewrite Z.div_small by lia. lia. }
    rewrite Hd. exact IH.
Qed.

Lemma le_decode_encode (w : nat) (v : Z) :
  le_decode (le_encode w v) = v mod 256 ^ Z.of_nat w.
Proof.
  revert v. induction w as [|w IH]; intros v.
  - simpl. rewrite Z.mod_1_r. reflexivity.
  - simpl le_encode. simpl le_decode. rewrite IH, byte_to_Z_to_byte.
    rewrite Nat2Z.inj_succ, Z.pow_succ_r by lia.
    rewrite Z.rem_mul_r; [reflexivity | lia |].
    apply Z.pow_pos_nonneg; lia.
Qed.

Lemma host_encode_decode (le : bool) (w : nat) (bs : list byte) :
  length bs = w -> host_encode le w (host_decode le bs) = bs.
Proof.
  intros <-. unfold host_encode, host_decode. destruct le.
  - apply le_encode_decode.
  - rewrite <- (length_rev bs), le_encode_decode. apply rev_involutive.
Qed.

Lemma host_decode_encode (le : bool) (w : nat) (v : Z) :
  host_decode le (host_encode le w v) = v mod 256 ^ Z.of_nat w.
Proof.
  unfold host_encode, host_decode. destruct le.
  - apply le_decode_encode.
  - rewrite rev_involutive. apply le_decode_encode.
Qed.

Lemma length_net_encode (w : nat) (v : Z) : length (net_encode w v) = w.
Proof. unfold net_encode. rewrite length_rev. apply length_le_encode. Qed.

Lemma length_host_encode (le : bool) (w : nat) (v : Z) :
  length (host_encode le w v) = w.
Proof.
  unfold host_encode. destruct le; rewrite ?length_rev;
    apply length_le_encode.
Qed.

(** Storing [htons v] (or [htonl v]) puts the big-endian bytes of [v]
    into memory, whatever the byte order of the host. *)
Lemma encode_htons (le : bool) (v : Z) :
  host_encode le 2 (htons le v) = net_encode 2 v.
Proof.
  unfold htons. apply host_encode_decode. apply length_net_encode.
Qed.

Lemma encode_htonl (le : bool) (v : Z) :
  host_encode le 4 (htonl le v) = net_encode 4 v.
Proof.
  unfold htonl. apply host_encode_decode. apply length_net_encode.
Qed.

Lemma le_encode_mod (w : nat) (v : Z) :
  le_encode w (v mod 256 ^ Z.of_nat w) = le_encode w v.
Proof.
  rewrite <- le_decode_encode.
  rewrite <- (length_le_encode w v) at 1. apply le_encode_decode.
Qed.

Lemma host_encode_1 (le : bool) (v : Z) : host_encode le 1 v = [Z_to_byte v].
Proof. destruct le; reflexivity. Qed.

(** The header [client_send_ack] builds and [client_send_packet]
    completes. *)
Lemma ack_header_bytes (le : bool) (ACK : Z) (out : out_fd)
    (data : option (list byte)) (n sec nsec : Z) :
  client_send_ack le ACK out data n (Some (sec, nsec))
  = proto_send_packet le out (wire_header ACK 0 0 n sec nsec) data.
Proof.
  unfold client_send_ack, client_send_packet.
  set (p4 := store le 2 OFF_SIZE n _).
  assert (Hp4 : p4 = [Z_to_byte ACK; x00; x00; x00]
                     ++ host_encode le 2 n ++ replicate 10 x00).
  { subst p4. unfold store. rewrite !host_encode_1. reflexivity. }
  assert (Hsz : hdr_size le p4 = n mod 256 ^ Z.of_nat 2).
  { rewrite Hp4. unfold hdr_size, load, OFF_SIZE.
    change (drop 4 ([Z_to_byte ACK; x00; x00; x00]
                    ++ host_encode le 2 n ++ replicate 10 x00))
      with (host_encode le 2 n ++ replicate 10 x00).
    rewrite take_app_length' by (rewrite length_host_encode; reflexivity).
    apply host_decode_encode. }
  rewrite Hsz. unfold store. rewrite encode_htons, !encode_htonl.
  unfold net_encode at 1. rewrite le_encode_mod. fold (net_encode 2 n).
  f_equal. rewrite Hp4. unfold wire_header, net_encode.
  destruct le; reflexivity.
Qed.

Lemma length_wire_header (t i r n s ns : Z) :
  length (wire_header t i r n s ns) = 16%nat.
Proof. reflexivity. Qed.

Lemma wire_header_size_bytes (t i r n s ns : Z) :
  take 2 (drop OFF_SIZE (wire_header t i r n s ns)) = net_encode 2 n.
Proof. reflexivity. Qed.

Lemma ntohs_wire_size (le : bool) (t i r n s ns : Z) :
  ntohs le (hdr_size le (wire_header t i r n s ns)) = n mod 65536.
Proof.
  unfold hdr_size, load. rewrite wire_header_size_bytes.
  unfold ntohs. rewrite host_encode_decode by apply length_net_encode.
  unfold net_decode, net_encode. rewrite rev_involutive.
  apply (le_decode_encode 2 n).
Qed.

Lemma write_all (fd : out_fd) (buf : list byte) :
  w_script fd = [] ->
  write fd buf
  = (Z.of_nat (length buf), mkOut [] (w_calls fd ++ [buf]) (w_wire fd ++ buf)).
Proof. intros H. unfold write. rewrite H. reflexivity. Qed.

(** X15. When every [write] takes all it is given, [client_send_ack]
    with a payload of fewer than 65536 bytes returns 0 and puts on the
    wire the 16-byte header followed by the payload; the header has the
    ACK code, zero id and role, and the payload length and the two clock
    values as big-endian numbers, on a host of either byte order. *)
Theorem ack_wire_format (host_le : bool) (ACK : Z) (out : out_fd)
    (d : list byte) (sec nsec : Z) :
  w_script out = [] -> (Z.of_nat (length d) < 65536) ->
  let r := client_send_ack host_le ACK out (Some d) (Z.of_nat (length d))
                           (Some (sec, nsec)) in
  fst r = 0 /\
  w_wire (snd r)
  = w_wire out ++ wire_header ACK 0 0 (Z.of_nat (length d)) sec nsec ++ d.
Proof.
  intros Hs Hd. cbv zeta. rewrite ack_header_bytes.
  unfold proto_send_packet. rewrite ntohs_wire_size.
  rewrite Z.mod_small by lia.
  rewrite (take_ge (wire_header _ _ _ _ _ _))
    by (rewrite length_wire_header; reflexivity).
  rewrite (write_all out _ Hs), length_wire_header. simpl (_ =? -1).
  cbv iota.
  destruct (0 <? Z.of_nat (length d)) eqn:E.
  - rewrite Nat2Z.id, take_ge by lia.
    rewrite write_all by reflexivity.
    assert (Hn : (Z.of_nat (length d) =? -1) = false)
      by (apply Z.eqb_neq; lia).
    rewrite Hn. simpl. split; [reflexivity|].
    rewrite <- app_assoc. reflexivity.
  - apply Z.ltb_ge in E. assert (Hl : length d = 0%nat) by lia.
    apply length_zero_iff_nil in Hl. subst d. simpl.
    split; [reflexivity|]. rewrite ?app_nil_r. reflexivity.
Qed.

Lemma ack_wire_format_witness :
  w_script (mkOut [] [] []) = [] /\
  Z.of_nat (length [x68; x69]) < 65536 /\
  w_wire (snd (client_send_ack true 9 (mkOut [] [] []) (Some [x68; x69])
                               2 (Some (1, 2))))
  = wire_header 9 0 0 2 1 2 ++ [x68; x69].
Proof.
  split; [reflexivity|]. split; [simpl; lia|].
  destruct (ack_wire_format true 9 (mkOut [] [] []) [x68; x69] 1 2
              eq_refl ltac:(simpl; lia)) as [_ H].
  exact H.
Defined.

Lemma length_store (le : bool) (w off : nat) (v : Z) (m : list byte) :
  (off + w <= length m)%nat -> length (store le w off v m) = length m.
Proof.
  intros H. unfold store.
  rewrite !length_app, length_take, length_drop, length_host_encode. lia.
Qed.

Lemma length_swap_stale (le : bool) (hdr : list byte) :
  length hdr = 16%nat -> length (swap_stale le hdr) = 16%nat.
Proof.
  intros H. unfold swap_stale, OFF_SIZE, OFF_SEC, OFF_NSEC. cbv zeta.
  assert (Hst : forall w off v m, length m = 16%nat ->
            (off + w <= 16)%nat -> length (store le w off v m) = 16%nat).
  { intros w off v m Hm Hw. rewrite length_store; [exact Hm | lia]. }
  apply Hst; [|lia]. apply Hst; [|lia]. apply Hst; [exact H | lia].
Qed.

(** X16. A packet whose header announces [n] payload bytes, followed
    in the stream by [rest], is received with status 0 and the header
    stored as sent.  The size is read without [ntohs]: on a big-endian
    host the payload is the next [n] bytes, on a little-endian host it
    is the next [256 * (n mod 256) + n / 256] bytes (as many of them as
    the stream holds), in a zeroed buffer one byte longer; with [n = 0]
    there is no payload and nothing more is read. *)
Theorem recv_wire_packet (host_le : bool) (t i r n s ns : Z)
    (rest hdr : list byte) (calls : nat) :
  0 <= n < 65536 -> length hdr = 16%nat ->
  let h := wire_header t i r n s ns in
  let asked := Z.to_nat (if host_le then 256 * (n mod 256) + n / 256
                         else n) in
  let unread l := match l with
                  | [] => []
                  | _ => [ReadData l]
                  end in
  proto_recv_packet host_le (mkIn [ReadData (h ++ rest)] calls) hdr
  = if n =? 0
    then (0, h, None, mkIn (unread rest) (S calls))
    else (0, h,
          Some (overlay (take asked rest) (replicate (S asked) x00)),
          mkIn (unread (drop asked rest)) (S (S calls))).
Proof.
  intros Hn Hl. cbv zeta. unfold proto_recv_packet.
  assert (Hread : read (mkIn [ReadData (wire_header t i r n s ns ++ rest)]
                             calls) HDR_BYTES
          = (16, wire_header t i r n s ns,
             mkIn (match rest with
                   | [] => []
                   | _ => [ReadData rest]
                   end) (S calls))).
  { reflexivity. }
  rewrite Hread. clear Hread.
  assert (Hov : overlay (wire_header t i r n s ns) (swap_stale host_le hdr)
                = wire_header t i r n s ns).
  { unfold overlay. rewrite drop_ge, app_nil_r; [reflexivity|].
    rewrite length_swap_stale, length_wire_header by exact Hl. lia. }
  rewrite Hov. clear Hov. simpl (16 =? -1). simpl (16 =? 0). cbv iota.
  assert (Hsz : hdr_size host_le (wire_header t i r n s ns)
                = if host_le then 256 * (n mod 256) + n / 256 else n).
  { unfold hdr_size, load. rewrite wire_header_size_bytes.
    unfold host_decode, net_encode. simpl le_encode.
    destruct host_le; simpl; rewrite !byte_to_Z_to_byte.
    - rewrite (Z.mod_small (n / 256)); [lia|].
      split; [apply Z.div_pos; lia | apply Z.div_lt_upper_bound; lia].
    - rewrite (Z.mod_small (n / 256)).
      + pose proof (Z.div_mod n 256 ltac:(lia)). lia.
      + split; [apply Z.div_pos; lia | apply Z.div_lt_upper_bound; lia]. }
  rewrite Hsz. clear Hsz.
  set (sz := if host_le then 256 * (n mod 256) + n / 256 else n).
  assert (Hpos : (0 <? sz) = negb (n =? 0)).
  { subst sz. destruct (n =? 0) eqn:E.
    - apply Z.eqb_eq in E. subst n. destruct host_le; reflexivity.
    - apply Z.eqb_neq in E. apply Z.ltb_lt.
      pose proof (Z.mod_pos_bound n 256 ltac:(lia)).
      pose proof (Z.div_mod n 256 ltac:(lia)).
      assert (0 <= n / 256) by (apply Z.div_pos; lia).
      destruct host_le; lia. }
  rewrite Hpos. destruct (n =? 0); simpl; [reflexivity|].
  unfold read. simpl r_script.
  destruct rest as [|b rest]; simpl r_script.
  - rewrite take_nil, drop_nil. reflexivity.
  - cbv zeta. simpl r_calls.
    assert (Hst : (Z.of_nat (length (take (Z.to_nat sz) (b :: rest))) =? -1)
                  = false) by (apply Z.eqb_neq; lia).
    rewrite Hst. reflexivity.
Qed.

Lemma recv_wire_packet_witness :
  0 <= 2 < 65536 /\ length (replicate 16 x00) = 16%nat /\
  proto_recv_packet false
    (mkIn [ReadData (wire_header 7 3 0 2 0 0 ++ [x35; x58; x09])] 0)
    (replicate 16 x00)
  = (0, wire_header 7 3 0 2 0 0, Some [x35; x58; x00],
     mkIn [ReadData [x09]] 2).
Proof.
  split; [lia|]. split; [reflexivity|].
  rewrite (recv_wire_packet false 7 3 0 2 0 0 [x35; x58; x09]
             (replicate 16 x00) 0 ltac:(lia) eq_refl).
  reflexivity.
Defined.

End WireFacts.

(* ===================================================================== *)
(** * Properties of the heap and of player_registry.c *)
(* ===================================================================== *)

Section HeapFacts.
Import Heap.

Lemma deref_lt {A} (h : heap A) (p : nat) (x : A) :
  deref h p = Some x -> (p < length h)%nat.
Proof.
  unfold deref. destruct (h !! p) as [o|] eqn:E; [|discriminate].
  intros _. exact (lookup_lt_Some _ _ _ E).
Qed.

Lemma deref_alloc_new {A} (h : heap A) (x : A) :
  deref (snd (alloc h x)) (fst (alloc h x)) = Some x.
Proof.
  unfold deref, alloc. cbn [fst snd].
  rewrite list_lookup_middle; reflexivity.
Qed.

Lemma deref_alloc_old {A} (h : heap A) (x : A) (p : nat) :
  (p < length h)%nat -> deref (snd (alloc h x)) p = deref h p.
Proof.
  intros H. unfold deref, alloc. cbn [fst snd]. rewrite lookup_app_l; auto.
Qed.

Lemma deref_update_eq {A} (h : heap A) (p : nat) (x : A) :
  (p < length h)%nat -> deref (update h p x) p = Some x.
Proof.
  intros H. unfold deref, update. rewrite list_lookup_insert_eq; auto.
Qed.

Lemma deref_update_ne {A} (h : heap A) (p q : nat) (x : A) :
  p <> q -> deref (update h p x) q = deref h q.
Proof.
  intros H. unfold deref, update. rewrite list_lookup_insert_ne; auto.
Qed.

Lemma deref_free_eq {A} (h : heap A) (p : nat) :
  deref (free h p) p = None.
Proof.
  unfold deref, free.
  destruct (decide (p < length h)%nat) as [H|H].
  - rewrite list_lookup_insert_eq; auto.
  - rewrite (proj2 (lookup_ge_None _ _)); auto.
    rewrite length_insert. lia.
Qed.

Lemma deref_free_ne {A} (h : heap A) (p q : nat) :
  p <> q -> deref (free h p) q = deref h q.
Proof.
  intros H. unfold deref, free. rewrite list_lookup_insert_ne; auto.
Qed.

End HeapFacts.

Section PlayerRegistryFacts.
Import CString Player Heap PlayerRegistry.

Lemma c_chars_of_list (l : list ascii) :
  Forall (fun c => c <> NUL) l -> c_chars (string_of_list_ascii l) = l.
Proof.
  induction 1 as [|c l Hc _ IH]; simpl; auto.
  destruct (Ascii.eqb c NUL) eqn:E.
  - apply Ascii.eqb_eq in E. contradiction.
  - now rewrite IH.
Qed.

Lemma c_chars_no_nul (s : string) : Forall (fun c => c <> NUL) (c_chars s).
Proof.
  induction s as [|c s IH]; simpl; [constructor|].
  destruct (Ascii.eqb c NUL) eqn:E; constructor; auto.
  apply Ascii.eqb_neq in E. exact E.
Qed.

Lemma c_string_idem (s : string) : c_string (c_string s) = c_string s.
Proof.
  unfold c_string. now rewrite c_chars_of_list by apply c_chars_no_nul.
Qed.

Lemma strcmp_eq_true (a b : string) :
  strcmp_eq a b = true <-> c_string a = c_string b.
Proof. unfold strcmp_eq. apply String.eqb_eq. Qed.

Lemma strcmp_eq_false (a b : string) :
  strcmp_eq a b = false <-> c_string a <> c_string b.
Proof. unfold strcmp_eq. apply String.eqb_neq. Qed.

(** The scan stops at the first node whose player has the name. *)
Lemma preg_find_found (players : heap PLAYER) (nodes : list nat)
    (user : string) (p : nat) (pl : PLAYER) :
  (forall q, In q nodes -> exists ql, deref players q = Some ql) ->
  (forall q r ql rl, In q nodes -> In r nodes ->
     deref players q = Some ql -> deref players r = Some rl ->
     c_string (name ql) = c_string (name rl) -> q = r) ->
  In p nodes -> deref players p = Some pl ->
  c_string (name pl) = c_string user ->
  preg_find players nodes user = Some (Some p).
Proof.
  induction nodes as [|q nodes IH]; intros Hlive Hdist Hin Hp Hn.
  - destruct Hin.
  - simpl. destruct (Hlive q (or_introl eq_refl)) as [ql Hq]. rewrite Hq.
    unfold player_get_name.
    destruct (strcmp_eq (name ql) user) eqn:E.
    + apply strcmp_eq_true in E.
      assert (q = p) as ->
        by (apply (Hdist q p ql pl); simpl; auto; congruence).
      reflexivity.
    + apply strcmp_eq_false in E. destruct Hin as [->|Hin].
      * rewrite Hp in Hq. inversion Hq; subst. congruence.
      * apply IH; auto.
        -- intros r Hr. apply Hlive. right; auto.
        -- intros a b al bl Ha Hb. apply Hdist; right; auto.
Qed.

Lemma preg_find_new (players : heap PLAYER) (nodes : list nat)
    (user : string) :
  (forall q, In q nodes -> exists ql, deref players q = Some ql) ->
  (forall q ql, In q nodes -> deref players q = Some ql ->
     c_string (name ql) <> c_string user) ->
  preg_find players nodes user = Some None.
Proof.
  induction nodes as [|q nodes IH]; intros Hlive Hno; simpl; auto.
  destruct (Hlive q (or_introl eq_refl)) as [ql Hq]. rewrite Hq.
  unfold player_get_name.
  destruct (strcmp_eq (name ql) user) eqn:E.
  - apply strcmp_eq_true in E. destruct (Hno q ql); auto. left; auto.
  - apply IH.
    + intros r Hr. apply Hlive. right; auto.
    + intros r rl Hr. apply Hno. right; auto.
Qed.

(** What the scan returns, on a registry whose nodes are alive. *)
Lemma preg_find_cases (players : heap PLAYER) (nodes : list nat)
    (user : string) :
  (forall q, In q nodes -> exists ql, deref players q = Some ql) ->
  (exists p pl, preg_find players nodes user = Some (Some p) /\
     In p nodes /\ deref players p = Some pl /\
     c_string (name pl) = c_string user) \/
  (preg_find players nodes user = Some None /\
   forall q ql, In q nodes -> deref players q = Some ql ->
     c_string (name ql) <> c_string user).
Proof.
  induction nodes as [|q nodes IH]; intros Hlive; simpl.
  - right. split; [reflexivity|]. intros q ql [].
  - destruct (Hlive q (or_introl eq_refl)) as [ql Hq]. rewrite Hq.
    unfold player_get_name.
    destruct (strcmp_eq (name ql) user) eqn:E.
    + apply strcmp_eq_true in E. left. exists q, ql. repeat split; auto.
    + apply strcmp_eq_false in E.
      destruct IH as [(p & pl & Hf & Hin & Hp & Hn)|[Hf Hno]].
      * intros r Hr. apply Hlive. right; auto.
      * left. exists p, pl. repeat split; auto.
      * right. split; auto. intros r rl [<-|Hr] Hd.
        -- rewrite Hq in Hd. inversion Hd; subst. auto.
        -- eapply Hno; eauto.
Qed.

Lemma preg_register_found (players : heap PLAYER) (preg : PLAYER_REGISTRY)
    (user : string) (p : nat) (pl : PLAYER) :
  preg_ok players preg ->
  In p (head preg) -> deref players p = Some pl ->
  c_string (name pl) = c_string user ->
  preg_register players preg user
  = Some (p, update players p (player_ref pl), preg).
Proof.
  intros (Hnd & Hlive & Hdist) Hin Hp Hn. unfold preg_register.
  rewrite (preg_find_found players (head preg) user p pl); auto.
  now rewrite Hp.
Qed.

Lemma preg_register_new (players : heap PLAYER) (preg : PLAYER_REGISTRY)
    (user : string) :
  preg_ok players preg ->
  (forall q ql, In q (head preg) -> deref players q = Some ql ->
     c_string (name ql) <> c_string user) ->
  preg_register players preg user
  = Some (length players,
          players ++ [Some (mkPLAYER PLAYER_INITIAL_RATING (c_string user) 2)],
          mkPREG (length players :: head preg)).
Proof.
  intros (Hnd & Hlive & Hdist) Hno. unfold preg_register.
  rewrite preg_find_new; auto.
  pose proof (deref_alloc_new players (player_create user)) as Ha.
  unfold alloc in *. simpl in Ha. rewrite Ha.
  unfold update. f_equal. f_equal. f_equal.
  replace (length players) with (length players + 0)%nat at 1 by lia.
  rewrite insert_app_r. reflexivity.
Qed.

Lemma preg_update_ok (players : heap PLAYER) (preg : PLAYER_REGISTRY)
    (p : nat) (pl pl' : PLAYER) :
  preg_ok players preg -> deref players p = Some pl ->
  name pl' = name pl ->
  preg_ok (update players p pl') preg.
Proof.
  intros (Hnd & Hlive & Hdist) Hp Hn.
  pose proof (deref_lt _ _ _ Hp) as Hlt.
  assert (Hd : forall q ql, deref (update players p pl') q = Some ql ->
            exists ql0, deref players q = Some ql0 /\ name ql = name ql0).
  { intros q ql. destruct (decide (p = q)) as [<-|Hne].
    - rewrite deref_update_eq by auto. intros [= <-]. eauto.
    - rewrite deref_update_ne by auto. eauto. }
  split; [auto|]. split.
  - intros q Hq. destruct (decide (p = q)) as [<-|Hne].
    + rewrite deref_update_eq by auto. eauto.
    + rewrite deref_update_ne by auto. auto.
  - intros a b al bl Ha Hb Hda Hdb Hnab.
    destruct (Hd _ _ Hda) as (al0 & Ha0 & Hna).
    destruct (Hd _ _ Hdb) as (bl0 & Hb0 & Hnb).
    apply (Hdist a b al0 bl0); auto. congruence.
Qed.

Lemma preg_new_ok (players : heap PLAYER) (preg : PLAYER_REGISTRY)
    (user : string) :
  preg_ok players preg ->
  (forall q ql, In q (head preg) -> deref players q = Some ql ->
     c_string (name ql) <> c_string user) ->
  let new := mkPLAYER PLAYER_INITIAL_RATING (c_string user) 2 in
  preg_ok (players ++ [Some new]) (mkPREG (length players :: head preg)) /\
  deref (players ++ [Some new]) (length players) = Some new /\
  (forall q ql, deref players q = Some ql ->
     deref (players ++ [Some new]) q = Some ql).
Proof.
  intros (Hnd & Hlive & Hdist) Hno new.
  assert (Hold : forall q ql, deref players q = Some ql ->
            deref (players ++ [Some new]) q = Some ql).
  { intros q ql Hd. pose proof (deref_lt _ _ _ Hd).
    pose proof (deref_alloc_old players new q) as Ha.
    unfold alloc in Ha. simpl in Ha. rewrite Ha; auto. }
  assert (Hnew : deref (players ++ [Some new]) (length players) = Some new).
  { exact (deref_alloc_new players new). }
  assert (Hfresh : ~ In (length players) (head preg)).
  { intros Hin. destruct (Hlive _ Hin) as [ql Hq].
    apply deref_lt in Hq. lia. }
  assert (Hback : forall q ql, In q (head preg) ->
            deref (players ++ [Some new]) q = Some ql ->
            deref players q = Some ql).
  { intros q ql Hq Hd. destruct (Hlive _ Hq) as [ql0 Hq0].
    rewrite (Hold _ _ Hq0) in Hd. congruence. }
  split; [|split; auto].
  split; [simpl; apply NoDup_cons_2; [|exact Hnd]|].
  { intros Hin. apply Hfresh. apply list_elem_of_In. exact Hin. }
  split.
  - intros q [<-|Hq]; [eauto|]. destruct (Hlive _ Hq) as [ql Hd]. eauto.
  - intros a b al bl [<-|Ha] [<-|Hb] Hda Hdb Hnab; auto.
    + rewrite Hnew in Hda. inversion Hda; subst al.
      apply Hback in Hdb; auto. destruct (Hno b bl Hb Hdb).
      simpl in Hnab. rewrite c_string_idem in Hnab. congruence.
    + rewrite Hnew in Hdb. inversion Hdb; subst bl.
      apply Hback in Hda; auto. destruct (Hno a al Ha Hda).
      simpl in Hnab. rewrite c_string_idem in Hnab. congruence.
    + apply (Hdist a b al bl); auto.
Qed.

Lemma preg_init_ok (players : heap PLAYER) : preg_ok players preg_init.
Proof.
  split; [apply NoDup_nil_2|]. split.
  - intros p [].
  - intros p q pl ql [].
Qed.





(** X19. Registering the same name twice in a row returns the same
    player both times; the second call adds no node and only raises that
    player's reference count by one. *)
Theorem preg_register_twice (players : heap PLAYER)
    (preg : PLAYER_REGISTRY) (user : string) :
  preg_ok players preg ->
  exists player players1 preg1 pl,
    preg_register players preg user = Some (player, players1, preg1) /\
    deref players1 player = Some pl /\
    preg_register players1 preg1 user
    = Some (player,
            update players1 player
              (mkPLAYER (rating pl) (name pl) (count pl + 1)),
            preg1).
Proof.
  intros Hok. pose proof Hok as (Hnd & Hlive & Hdist).
  destruct (preg_find_cases players (head preg) user Hlive)
    as [(p & pl & _ & Hin & Hp & Hn)|[_ Hno]].
  - pose proof (deref_lt _ _ _ Hp) as Hlt.
    exists p, (update players p (player_ref pl)), preg, (player_ref pl).
    split; [apply preg_register_found; auto|].
    split; [apply deref_update_eq; auto|].
    apply (preg_register_found _ _ _ p (player_ref pl)); auto.
    + eapply preg_update_ok; eauto.
    + apply deref_update_eq; auto.
  - destruct (preg_new_ok players preg user Hok Hno) as (Hok' & Hnew & Hold).
    set (new := mkPLAYER PLAYER_INITIAL_RATING (c_string user) 2) in *.
    exists (length players), (players ++ [Some new]),
           (mkPREG (length players :: head preg)), new.
    split; [apply preg_register_new; auto|].
    split; [auto|].
    apply (preg_register_found _ _ _ (length players) new); auto.
    + left; auto.
    + simpl. apply c_string_idem.
Qed.

Lemma preg_register_twice_witness :
  preg_ok [] preg_init /\
  exists player players1 preg1 pl,
    preg_register [] preg_init "carol" = Some (player, players1, preg1) /\
    deref players1 player = Some pl /\
    preg_register players1 preg1 "carol"
    = Some (player,
            update players1 player
              (mkPLAYER (rating pl) (name pl) (count pl + 1)),
            preg1).
Proof.
  split; [apply preg_init_ok|].
  apply (preg_register_twice [] preg_init "carol").
  apply preg_init_ok.
Defined.

End PlayerRegistryFacts.

(* ===================================================================== *)
(** * Properties of client_registry.c *)
(* ===================================================================== *)

Section ClientRegistryFacts.
Import CString Player Heap Client ClientRegistry.

Lemma first_slot_Some (x : option nat) (l : list (option nat)) (i : nat) :
  first_slot x l = Some i <->
  l !! i = Some x /\ forall j, (j < i)%nat -> l !! j <> Some x.
Proof.
  revert i. induction l as [|s l IH]; intros i; simpl.
  - split; [discriminate|]. intros [H _]. discriminate.
  - destruct (decide (s = x)) as [->|Hne].
    + split.
      * intros [= <-]. split; [reflexivity|]. intros j Hj. lia.
      * intros [H Hmin]. destruct i as [|i]; [reflexivity|].
        destruct (Hmin 0%nat); [lia|reflexivity].
    + destruct (first_slot x l) as [k|] eqn:E.
      * split.
        -- intros [= <-]. destruct (proj1 (IH k) eq_refl) as [H Hmin].
           split; [exact H|]. intros [|j] Hj; simpl.
           ++ congruence.
           ++ apply Hmin. lia.
        -- intros [H Hmin]. destruct i as [|i]; simpl in H; [congruence|].
           assert (Hi : Some k = Some i); [|congruence].
           apply (proj2 (IH i)). split; auto.
           intros j Hj. apply (Hmin (S j)). lia.
      * split; [discriminate|]. intros [H Hmin].
        destruct i as [|i]; simpl in H; [congruence|].
        assert (Hi : @None nat = Some i); [|discriminate].
        apply (proj2 (IH i)). split; auto.
        intros j Hj. apply (Hmin (S j)). lia.
Qed.

Lemma first_slot_None (x : option nat) (l : list (option nat)) :
  first_slot x l = None <-> forall i, l !! i <> Some x.
Proof.
  split.
  - intros H i Hi.
    induction l as [|s l IH] in i, H, Hi |- *; [discriminate|].
    simpl in H. destruct (decide (s = x)) as [->|Hne]; [discriminate|].
    destruct (first_slot x l) eqn:E; [discriminate|].
    destruct i as [|i]; simpl in Hi; [congruence|]. eapply IH; eauto.
  - intros H. destruct (first_slot x l) as [i|] eqn:E; [|reflexivity].
    apply first_slot_Some in E. destruct (H i). tauto.
Qed.

Lemma taken_cons (s : option nat) (l : list (option nat)) :
  taken (s :: l) = (match s with Some _ => 1 | None => 0 end + taken l)%nat.
Proof.
  unfold taken. destruct s.
  - rewrite filter_cons_True by discriminate. reflexivity.
  - rewrite filter_cons_False by auto. reflexivity.
Qed.

Lemma taken_le (l : list (option nat)) : (taken l <= length l)%nat.
Proof. apply length_filter. Qed.

Lemma taken_full (l : list (option nat)) :
  (forall i, l !! i <> Some None) -> taken l = length l.
Proof.
  induction l as [|s l IH]; intros H; [reflexivity|].
  rewrite taken_cons. simpl. destruct s.
  - rewrite IH; auto. intros i. apply (H (S i)).
  - destruct (H 0%nat). reflexivity.
Qed.

Lemma taken_insert_Some (l : list (option nat)) (i c : nat) :
  l !! i = Some None -> taken (<[i := Some c]> l) = S (taken l).
Proof.
  revert i. induction l as [|s l IH]; intros [|i] H; simpl in H;
    try discriminate.
  - inversion H; subst. simpl. now rewrite !taken_cons.
  - simpl. rewrite !taken_cons, IH by auto. lia.
Qed.

Lemma taken_insert_None (l : list (option nat)) (i c : nat) :
  l !! i = Some (Some c) -> S (taken (<[i := None]> l)) = taken l.
Proof.
  revert i. induction l as [|s l IH]; intros [|i] H; simpl in H;
    try discriminate.
  - inversion H; subst. simpl. now rewrite !taken_cons.
  - simpl. rewrite !taken_cons. rewrite <- (IH i) by auto. lia.
Qed.

Lemma taken_replicate (n : nat) : taken (replicate n None) = 0%nat.
Proof.
  induction n as [|n IH]; [reflexivity|].
  simpl. now rewrite taken_cons.
Qed.

Lemma creg_init_ok (MAX : nat) (cheap : heap CLIENT) :
  creg_ok MAX cheap (creg_init MAX).
Proof.
  unfold creg_ok, creg_init. simpl.
  split; [apply length_replicate|]. split.
  - now rewrite taken_replicate.
  - split.
    + intros i j c H. apply lookup_replicate in H. destruct H. discriminate.
    + intros i c H. apply lookup_replicate in H. destruct H. discriminate.
Qed.


Lemma creg_register_room (MAX : nat) (cheap : heap CLIENT)
    (cr : CLIENT_REGISTRY) (fd : Z) :
  creg_ok MAX cheap cr -> numClients cr <> Z.of_nat MAX ->
  exists i,
    clients cr !! i = Some None /\
    (forall j, (j < i)%nat -> clients cr !! j <> Some None) /\
    creg_register MAX cheap cr fd
    = (Some (length cheap), cheap ++ [Some (client_create fd)],
       mkCREG (numClients cr + 1)
              (<[i := Some (length cheap)]> (clients cr))) /\
    creg_ok MAX (cheap ++ [Some (client_create fd)])
            (mkCREG (numClients cr + 1)
                    (<[i := Some (length cheap)]> (clients cr))).
Proof.
  intros (Hlen & Hnum & Hdist & Hlive) Hne.
  unfold creg_register.
  destruct (numClients cr =? Z.of_nat MAX) eqn:E;
    [apply Z.eqb_eq in E; contradiction|].
  rewrite take_ge by lia. unfold alloc.
  destruct (first_slot None (clients cr)) as [i|] eqn:Ef.
  - apply first_slot_Some in Ef. destruct Ef as [Hi Hmin].
    exists i. split; [exact Hi|]. split; [exact Hmin|].
    split; [reflexivity|].
    assert (Hfresh : forall k, clients cr !! k <> Some (Some (length cheap))).
    { intros k Hk. destruct (Hlive _ _ Hk) as [cl Hd].
      apply deref_lt in Hd. lia. }
    unfold creg_ok. simpl. split; [now rewrite length_insert|]. split.
    + rewrite taken_insert_Some by auto. lia.
    + split.
      * intros a b c Ha Hb.
        apply list_lookup_insert_Some in Ha, Hb.
        destruct Ha as [(-> & Hc & _)|[Hai Ha]];
          destruct Hb as [(-> & Hc' & _)|[Hbi Hb]]; auto.
        -- inversion Hc; subst c. destruct (Hfresh _ Hb).
        -- inversion Hc'; subst c. destruct (Hfresh _ Ha).
        -- eapply Hdist; eauto.
      * intros a c Ha. apply list_lookup_insert_Some in Ha.
        destruct Ha as [(-> & Hc & _)|[Hai Ha]].
        -- inversion Hc; subst c. exists (client_create fd).
           exact (deref_alloc_new cheap (client_create fd)).
        -- destruct (Hlive _ _ Ha) as [cl Hd]. exists cl.
           pose proof (deref_lt _ _ _ Hd).
           pose proof (deref_alloc_old cheap (client_create fd) c) as Ho.
           unfold alloc in Ho. simpl in Ho. rewrite Ho; auto.
  - exfalso. pose proof (proj1 (first_slot_None _ _) Ef) as Hn.
    apply taken_full in Hn. lia.
Qed.

Lemma unref_at_other (cheap cheap' : heap CLIENT) (c q : nat) :
  unref_at cheap c = Some cheap' -> q <> c ->
  deref cheap' q = deref cheap q.
Proof.
  unfold unref_at. destruct (deref cheap c) as [cl|]; [|discriminate].
  destruct (client_unref cl); intros [= <-] Hq.
  - apply deref_update_ne. auto.
  - apply deref_free_ne. auto.
Qed.

Lemma creg_unregister_found (MAX : nat) (cheap : heap CLIENT)
    (cr : CLIENT_REGISTRY) (c i : nat) :
  creg_ok MAX cheap cr -> clients cr !! i = Some (Some c) ->
  exists cheap',
    unref_at cheap c = Some cheap' /\
    creg_unregister MAX cheap cr c
    = Some (0, cheap',
            mkCREG (numClients cr - 1) (<[i := None]> (clients cr))) /\
    creg_ok MAX cheap'
            (mkCREG (numClients cr - 1) (<[i := None]> (clients cr))).
Proof.
  intros (Hlen & Hnum & Hdist & Hlive) Hi.
  unfold creg_unregister. rewrite take_ge by lia.
  assert (Ef : first_slot (Some c) (clients cr) = Some i).
  { apply first_slot_Some. split; [exact Hi|].
    intros j Hj Hc. pose proof (Hdist _ _ _ Hi Hc). lia. }
  rewrite Ef. destruct (Hlive _ _ Hi) as [cl Hd].
  assert (Hu : exists cheap', unref_at cheap c = Some cheap').
  { unfold unref_at. rewrite Hd. destruct (client_unref cl); eauto. }
  destruct Hu as [cheap' Hu]. exists cheap'. rewrite Hu.
  split; [reflexivity|]. split; [reflexivity|].
  unfold creg_ok. simpl. split; [now rewrite length_insert|]. split.
  - pose proof (taken_insert_None _ _ _ Hi). lia.
  - split.
    + intros a b d Ha Hb. apply list_lookup_insert_Some in Ha, Hb.
      destruct Ha as [(_ & Hc & _)|[Hai Ha]]; [discriminate|].
      destruct Hb as [(_ & Hc & _)|[Hbi Hb]]; [discriminate|].
      eapply Hdist; eauto.
    + intros a d Ha. apply list_lookup_insert_Some in Ha.
      destruct Ha as [(_ & Hc & _)|[Hai Ha]]; [discriminate|].
      rewrite (unref_at_other _ _ _ _ Hu).
      * eapply Hlive; eauto.
      * intros ->. apply Hai. eapply Hdist; eauto.
Qed.






(** X22. Registering a client and unregistering it at once gives back
    the registry as it was, and the client, which had its single
    reference from the registry, is freed. *)
Theorem creg_register_unregister (MAX : nat) (cheap : heap CLIENT)
    (cr : CLIENT_REGISTRY) (fd : Z) :
  creg_ok MAX cheap cr -> numClients cr <> Z.of_nat MAX ->
  exists c cheap1 cr1,
    creg_register MAX cheap cr fd = (Some c, cheap1, cr1) /\
    creg_unregister MAX cheap1 cr1 c = Some (0, free cheap1 c, cr) /\
    deref (free cheap1 c) c = None.
Proof.
  intros Hok Hne.
  destruct (creg_register_room MAX cheap cr fd Hok Hne)
    as (i & Hi & Hmin & Hreg & Hok1).
  eexists _, _, _. split; [exact Hreg|].
  set (cheap1 := cheap ++ [Some (client_create fd)]) in *.
  set (c := length cheap) in *.
  assert (Hic : <[i:=Some c]> (clients cr) !! i = Some (Some c)).
  { apply list_lookup_insert_eq. exact (lookup_lt_Some _ _ _ Hi). }
  destruct (creg_unregister_found MAX cheap1 _ c i Hok1 Hic)
    as (cheap' & Hu & Heq & _).
  simpl in Heq. rewrite Heq.
  assert (Hd : deref cheap1 c = Some (client_create fd)).
  { exact (deref_alloc_new cheap (client_create fd)). }
  unfold unref_at in Hu. rewrite Hd in Hu. simpl in Hu.
  inversion Hu; subst cheap'.
  split; [|apply deref_free_eq].
  f_equal. f_equal. destruct cr as [n l]. simpl in *. f_equal; [lia|].
  rewrite list_insert_insert_eq. apply list_insert_id. exact Hi.
Qed.

Lemma creg_register_unregister_witness :
  creg_ok 2 [] (creg_init 2) /\ numClients (creg_init 2) <> Z.of_nat 2 /\
  exists c cheap1 cr1,
    creg_register 2 [] (creg_init 2) 7 = (Some c, cheap1, cr1) /\
    creg_unregister 2 cheap1 cr1 c = Some (0, free cheap1 c, creg_init 2) /\
    deref (free cheap1 c) c = None.
Proof.
  split; [apply creg_init_ok|]. split; [simpl; lia|].
  apply (creg_register_unregister 2 [] (creg_init 2) 7).
  - apply creg_init_ok.
  - simpl. lia.
Defined.

End ClientRegistryFacts.

Section ClientLookupFacts.
Import CString Player Heap Client ClientRegistry.

Lemma logins_ok_tail (cheap : heap CLIENT) (pheap : heap PLAYER)
    (s : option nat) (slots : list (option nat)) :
  logins_ok cheap pheap (s :: slots) -> logins_ok cheap pheap slots.
Proof. intros H i c Hi. apply (H (S i) c). exact Hi. Qed.

(** The loop of [creg_lookup] stops at the first slot whose client is
    logged in under the name. *)
Lemma lookup_loop_cases (cheap : heap CLIENT) (pheap : heap PLAYER)
    (slots : list (option nat)) (user : string) :
  logins_ok cheap pheap slots ->
  (exists i client,
     lookup_loop cheap pheap slots user = Some (Some client) /\
     slots !! i = Some (Some client) /\
     logged_in_as cheap pheap client user /\
     forall j other, (j < i)%nat -> slots !! j = Some (Some other) ->
       ~ logged_in_as cheap pheap other user) \/
  (lookup_loop cheap pheap slots user = Some None /\
   forall i client, slots !! i = Some (Some client) ->
     ~ logged_in_as cheap pheap client user).
Proof.
  induction slots as [|s slots IH]; intros Hok.
  - right. split; [reflexivity|]. intros i c H. discriminate.
  - specialize (IH (logins_ok_tail _ _ _ _ Hok)).
    assert (Hskip :
      lookup_loop cheap pheap (s :: slots) user
      = lookup_loop cheap pheap slots user ->
      (forall client, s = Some client ->
         ~ logged_in_as cheap pheap client user) ->
      (exists i client,
         lookup_loop cheap pheap (s :: slots) user = Some (Some client) /\
         (s :: slots) !! i = Some (Some client) /\
         logged_in_as cheap pheap client user /\
         forall j other, (j < i)%nat ->
           (s :: slots) !! j = Some (Some other) ->
           ~ logged_in_as cheap pheap other user) \/
      (lookup_loop cheap pheap (s :: slots) user = Some None /\
       forall i client, (s :: slots) !! i = Some (Some client) ->
         ~ logged_in_as cheap pheap client user)).
    { intros Heq Hs. rewrite Heq.
      destruct IH as [(i & c & Hl & Hi & Hlog & Hmin)|[Hl Hno]].
      - left. exists (S i), c. repeat split; auto.
        intros [|j] other Hj Ho.
        + simpl in Ho. apply Hs. congruence.
        + apply (Hmin j); auto. lia.
      - right. split; auto. intros [|i] c Hi.
        + simpl in Hi. apply Hs. congruence.
        + apply (Hno i). exact Hi. }
    destruct s as [client|]; [|apply Hskip; [reflexivity|discriminate]].
    destruct (Hok 0%nat client eq_refl) as (c & Hc & Hp).
    destruct (player c) as [p|] eqn:Ep.
    + destruct (Hp p eq_refl) as [pl Hpl].
      destruct (strcmp_eq (player_get_name pl) user) eqn:E.
      * left. exists 0%nat, client. simpl. rewrite Hc, Ep, Hpl, E.
        split; [reflexivity|]. split; [reflexivity|]. split.
        -- exists c, p, pl. repeat split; auto.
           apply String.eqb_eq. exact E.
        -- intros j other Hj. lia.
      * apply Hskip.
        -- simpl. now rewrite Hc, Ep, Hpl, E.
        -- intros c0 [= <-] (c' & p' & pl' & Hc' & Hp' & Hpl' & Hn).
           rewrite Hc in Hc'. inversion Hc'; subst c'.
           rewrite Ep in Hp'. inversion Hp'; subst p'.
           rewrite Hpl in Hpl'. inversion Hpl'; subst pl'.
           apply String.eqb_neq in E. apply E. exact Hn.
    + apply Hskip.
      * simpl. now rewrite Hc, Ep.
      * intros c0 [= <-] (c' & p' & pl' & Hc' & Hp' & _).
        rewrite Hc in Hc'. inversion Hc'; subst c'. congruence.
Qed.

(** X23. On a registry whose clients and their players are alive,
    [creg_lookup] returns the client of the first slot that is logged in
    under the name, with one more reference, and NULL, changing nothing,
    exactly when no registered client is logged in under it; clients that
    are not logged in are passed over. *)
Theorem creg_lookup_finds_login (MAX : nat) (cheap : heap CLIENT)
    (pheap : heap PLAYER) (cr : CLIENT_REGISTRY) (user : string) :
  length (clients cr) = MAX ->
  logins_ok cheap pheap (clients cr) ->
  (exists i client c,
     creg_lookup MAX cheap pheap cr user
     = Some (Some client, update cheap client (client_ref c)) /\
     clients cr !! i = Some (Some client) /\
     deref cheap client = Some c /\
     logged_in_as cheap pheap client user /\
     forall j other, (j < i)%nat -> clients cr !! j = Some (Some other) ->
       ~ logged_in_as cheap pheap other user) \/
  (creg_lookup MAX cheap pheap cr user = Some (None, cheap) /\
   forall i client, clients cr !! i = Some (Some client) ->
     ~ logged_in_as cheap pheap client user).
Proof.
  intros Hlen Hok. unfold creg_lookup. rewrite take_ge by lia.
  destruct (lookup_loop_cases cheap pheap (clients cr) user Hok)
    as [(i & client & Hl & Hi & Hlog & Hmin)|[Hl Hno]].
  - left. destruct (Hok i client Hi) as (c & Hc & _).
    exists i, client, c. rewrite Hl, Hc. repeat split; auto.
  - right. rewrite Hl. split; auto.
Qed.

Lemma example_logins_ok :
  logins_ok example_clients example_players (clients example_registry).
Proof.
  intros [|[|i]] client H; simpl in H; try discriminate.
  inversion H; subst client.
  exists (mkCLIENT 7 (Some 0%nat) [] 1 0). split; [reflexivity|].
  intros p [= <-]. exists (mkPLAYER 1500 "alice" 3). reflexivity.
Qed.

Lemma creg_lookup_finds_login_witness :
  length (clients example_registry) = 2%nat /\
  logins_ok example_clients example_players (clients example_registry) /\
  ((exists i client c,
      creg_lookup 2 example_clients example_players example_registry "alice"
      = Some (Some client, update example_clients client (client_ref c)) /\
      clients example_registry !! i = Some (Some client) /\
      deref example_clients client = Some c /\
      logged_in_as example_clients example_players client "alice" /\
      forall j other, (j < i)%nat ->
        clients example_registry !! j = Some (Some other) ->
        ~ logged_in_as example_clients example_players other "alice") \/
   (creg_lookup 2 example_clients example_players example_registry "alice"
    = Some (None, example_clients) /\
    forall i client, clients example_registry !! i = Some (Some client) ->
      ~ logged_in_as example_clients example_players client "alice")).
Proof.
  split; [reflexivity|]. split; [apply example_logins_ok|].
  apply (creg_lookup_finds_login 2 example_clients example_players
           example_registry "alice").
  - reflexivity.
  - apply example_logins_ok.
Defined.

End ClientLookupFacts.

Section AllPlayersFacts.
Import CString Player Heap Client ClientRegistry.










End AllPlayersFacts.

(* ===================================================================== *)
(** * Properties of the operations of client.c *)
(* ===================================================================== *)

Section ClientOpsFacts.
Import CString Heap Protocol Game Player Invitation Client ClientOps.

Lemma update_same {A} (h : heap A) (p : nat) (x : A) :
  deref h p = Some x -> update h p x = h.
Proof.
  unfold deref, update. intros H. apply list_insert_id.
  destruct (h !! p) as [[y|]|]; congruence.
Qed.




Lemma deref_update {A} (h : heap A) (p q : nat) (x y : A) :
  deref h p = Some y ->
  deref (update h p x) q = if decide (p = q) then Some x else deref h q.
Proof.
  intros H. destruct (decide (p = q)) as [<-|Hne].
  - apply deref_update_eq. eapply deref_lt; eauto.
  - apply deref_update_ne; auto.
Qed.














(** X26. [client_accept_invitation] never compares the caller with the
    target of the invitation.  Called by the source on its own open
    invitation it accepts it: the invitation becomes accepted with a new
    game, and the ACCEPTED packet, with the initial board when the source
    plays first, is sent on the caller's own connection; no other
    client is touched. *)
Theorem source_accepts_own_invitation (host_le : bool)
    (clock : nat -> option (Z * Z)) (ACCEPTED : Z) (w : WORLD)
    (c : nat) (i_d : Z) (cc : CLIENT) (n ns : INVITE_NODE)
    (i : INVITATION) :
  deref (w_clients w) c = Some cc ->
  get_invite_node_from_id (inviteHead cc) i_d = Some n ->
  get_invite_node_from_inv (inviteHead cc) (invitation n) = Some ns ->
  deref (w_invs w) (invitation n) = Some i ->
  game i = None -> state i = INV_OPEN_STATE ->
  source i = c ->
  let first := role_eqb (source_role i) FIRST_PLAYER_ROLE in
  let board := game_unparse_state game_create in
  let sent :=
    client_send_packet host_le (w_sockets w (fd cc))
      (new_header host_le ACCEPTED (id ns) 0 (if first then 29 else 0))
      (if first then Some (c_bytes board) else None)
      (clock (w_ticks w)) in
  client_accept_invitation host_le clock ACCEPTED w c i_d
  = Some (if fst sent =? -1 then -1 else 0,
          if first then None else Some board,
          mkWORLD (w_clients w)
                  (update (w_invs w) (invitation n)
                     (mkINV (source i) (source_role i) (target i)
                            (target_role i) INV_ACCEPTED_STATE
                            (Some game_create) (Invitation.count i)))
                  (w_players w)
                  (fun k => if k =? fd cc then snd sent else w_sockets w k)
                  (S (w_ticks w))).
Proof.
  intros Hc Hn Hns Hi Hg Hst Hsrc first board sent.
  unfold client_accept_invitation. rewrite Hc, Hn, Hi.
  unfold inv_get_game at 1. rewrite Hg, Hsrc, Hc, Hns.
  unfold inv_accept. rewrite Hst. change (0 =? -1) with false. cbv iota.
  cbn [inv_get_game set_game set_state game source_role source target
       target_role state Invitation.count].
  fold first. unfold send_packet, set_invs.
  cbn [w_clients w_invs w_players w_sockets w_ticks]. rewrite Hc.
  assert (Hlen : Z.of_nat (strlen (game_unparse_state game_create)) = 29).
  { rewrite (proj2 (unparse_state_chars game_create)). reflexivity. }
  destruct first; cbn [option_map];
    rewrite ?Hlen; fold board; fold sent;
    destruct sent as [e out]; cbn [fst snd];
    unfold set_game, set_state;
    cbn [game source_role source target target_role state
         Invitation.count];
    rewrite ?Hsrc; destruct (e =? -1); reflexivity.
Qed.

Lemma source_accepts_own_invitation_witness :
  exists w',
    client_accept_invitation true example_clock 7
      (example_invited INV_OPEN_STATE None) 0 0
    = Some (0, Some (game_unparse_state game_create), w') /\
    deref (w_invs w') 0
    = Some (mkINV 0%nat SECOND_PLAYER_ROLE 1%nat FIRST_PLAYER_ROLE
                  INV_ACCEPTED_STATE (Some game_create) 1).
Proof.
  eexists. split.
  - apply (source_accepts_own_invitation true example_clock 7
             (example_invited INV_OPEN_STATE None) 0 0
             (mkCLIENT 4 (Some 0%nat) [mkNODE 0 0%nat] 2 1)
             (mkNODE 0 0%nat) (mkNODE 0 0%nat)
             (mkINV 0%nat SECOND_PLAYER_ROLE 1%nat FIRST_PLAYER_ROLE
                    INV_OPEN_STATE None 1)); reflexivity.
  - reflexivity.
Defined.

(** X29. Only the source can revoke and only the target can decline:
    when the invitation found under the identifier has another source,
    [client_revoke_invitation] returns -1, and when it has another
    target, [client_decline_invitation] returns -1, and neither changes
    anything or sends a packet. *)
Theorem revoke_and_decline_check_the_caller (host_le : bool)
    (clock : nat -> option (Z * Z)) (REVOKED DECLINED : Z) (w : WORLD)
    (c : nat) (i_d : Z) (cc other : CLIENT) (n : INVITE_NODE)
    (i : INVITATION) :
  deref (w_clients w) c = Some cc ->
  get_invite_node_from_id (inviteHead cc) i_d = Some n ->
  deref (w_invs w) (invitation n) = Some i ->
  (source i <> c ->
   deref (w_clients w) (target i) = Some other ->
   client_revoke_invitation host_le clock REVOKED w c i_d = Some (-1, w)) /\
  (target i <> c ->
   deref (w_clients w) (source i) = Some other ->
   client_decline_invitation host_le clock DECLINED w c i_d
   = Some (-1, w)).
Proof.
  intros Hc Hn Hi. split; intros Hne Ho.
  - unfold client_revoke_invitation. rewrite Hc, Hn, Hi.
    destruct (inv_get_game i); [reflexivity|]. rewrite Ho.
    destruct (get_invite_node_from_inv (inviteHead other) (invitation n));
      [|reflexivity].
    destruct (source i =? c)%nat eqn:E; [apply Nat.eqb_eq in E; contradiction|].
    reflexivity.
  - unfold client_decline_invitation. rewrite Hc, Hn, Hi.
    destruct (inv_get_game i); [reflexivity|]. rewrite Ho.
    destruct (get_invite_node_from_inv (inviteHead other) (invitation n));
      [|reflexivity].
    destruct (target i =? c)%nat eqn:E; [apply Nat.eqb_eq in E; contradiction|].
    reflexivity.
Qed.

Lemma revoke_and_decline_check_the_caller_witness :
  client_revoke_invitation true example_clock 5
    (example_invited INV_OPEN_STATE None) 1 0
  = Some (-1, example_invited INV_OPEN_STATE None) /\
  client_decline_invitation true example_clock 6
    (example_invited INV_OPEN_STATE None) 0 0
  = Some (-1, example_invited INV_OPEN_STATE None).
Proof.
  split.
  - apply (proj1 (revoke_and_decline_check_the_caller true example_clock
             5 6 (example_invited INV_OPEN_STATE None) 1 0
             (mkCLIENT 5 (Some 1%nat) [mkNODE 0 0%nat] 2 1)
             (mkCLIENT 5 (Some 1%nat) [mkNODE 0 0%nat] 2 1)
             (mkNODE 0 0%nat)
             (mkINV 0%nat SECOND_PLAYER_ROLE 1%nat FIRST_PLAYER_ROLE
                    INV_OPEN_STATE None 1)
             eq_refl eq_refl eq_refl));
      [discriminate | reflexivity].
  - apply (proj2 (revoke_and_decline_check_the_caller true example_clock
             5 6 (example_invited INV_OPEN_STATE None) 0 0
             (mkCLIENT 4 (Some 0%nat) [mkNODE 0 0%nat] 2 1)
             (mkCLIENT 4 (Some 0%nat) [mkNODE 0 0%nat] 2 1)
             (mkNODE 0 0%nat)
             (mkINV 0%nat SECOND_PLAYER_ROLE 1%nat FIRST_PLAYER_ROLE
                    INV_OPEN_STATE None 1)
             eq_refl eq_refl eq_refl));
      [discriminate | reflexivity].
Defined.

(** X27. [client_make_move] takes the piece from the text of the move
    and never compares it with the role of the client that moves: every
    move that the game accepts is made, whichever participant sends it
    and whichever piece it places.  The role only words the line that
    names the side to move.  While the game goes on, the opponent is sent
    a MOVED packet with its own identifier of the invitation and the new
    state, and the result is the status of that transmission. *)
Theorem move_not_checked_against_role (host_le : bool)
    (clock : nat -> option (Z * Z)) (MOVED ENDED : Z) (w : WORLD)
    (c : nat) (i_d : Z) (move : string) (cc co : CLIENT)
    (n no : INVITE_NODE) (i : INVITATION) (g g1 : GAME) (m : GAME_MOVE) :
  deref (w_clients w) c = Some cc ->
  get_invite_node_from_id (inviteHead cc) i_d = Some n ->
  deref (w_invs w) (invitation n) = Some i ->
  game i = Some g ->
  let isSource := (c =? source i)%nat in
  let role := if isSource then source_role i else target_role i in
  let opponent := if isSource then target i else source i in
  deref (w_clients w) opponent = Some co ->
  get_invite_node_from_inv (inviteHead co) (invitation n) = Some no ->
  game_parse_move g NULL_ROLE move = Some m ->
  game_apply_move g m = Some (0, g1) -> isOver g1 = 0 ->
  let sent :=
    client_send_packet host_le (w_sockets w (fd co))
      (new_header host_le MOVED (id no) 0
                  (Z.of_nat (length (moved_text g1 role))))
      (Some (moved_buffer g1 role)) (clock (w_ticks w)) in
  client_make_move host_le clock MOVED ENDED w c i_d move
  = Some (if fst sent =? -1 then -1 else 0,
          mkWORLD (w_clients w)
                  (update (w_invs w) (invitation n) (set_game i (Some g1)))
                  (w_players w)
                  (fun k => if k =? fd co then snd sent else w_sockets w k)
                  (S (w_ticks w))).
Proof.
  intros Hc Hn Hi Hg isSource role opponent Ho Hno Hm Ha Hover sent.
  unfold client_make_move. rewrite Hc, Hn, Hi.
  unfold inv_get_game. rewrite Hg.
  fold isSource. fold role. fold opponent. rewrite Ho.
  change (game_parse_move g role move) with (game_parse_move g NULL_ROLE move).
  rewrite Hm, Ha. cbn [fst snd]. change (0 =? -1) with false. cbv iota.
  rewrite Hno. unfold send_packet, set_invs.
  cbn [w_clients w_invs w_players w_sockets w_ticks]. rewrite Ho.
  fold sent. destruct sent as [e out]. cbn [fst snd].
  unfold game_is_over. rewrite Hover.
  destruct (e =? -1); reflexivity.
Qed.

Lemma move_not_checked_against_role_witness :
  exists w',
    client_make_move true example_clock 8 9
      (example_invited INV_ACCEPTED_STATE (Some game_create)) 0 0 "5<-X"
    = Some (0, w') /\
    deref (w_invs w') 0
    = Some (mkINV 0%nat SECOND_PLAYER_ROLE 1%nat FIRST_PLAYER_ROLE
                  INV_ACCEPTED_STATE (Some example_centre) 1).
Proof.
  eexists. split.
  - apply (move_not_checked_against_role true example_clock 8 9
             (example_invited INV_ACCEPTED_STATE (Some game_create)) 0 0
             "5<-X"
             (mkCLIENT 4 (Some 0%nat) [mkNODE 0 0%nat] 2 1)
             (mkCLIENT 5 (Some 1%nat) [mkNODE 0 0%nat] 2 1)
             (mkNODE 0 0%nat) (mkNODE 0 0%nat)
             (mkINV 0%nat SECOND_PLAYER_ROLE 1%nat FIRST_PLAYER_ROLE
                    INV_ACCEPTED_STATE (Some game_create) 1)
             game_create example_centre (mkMOVE 1 5)); reflexivity.
  - reflexivity.
Defined.









End ClientOpsFacts.
